(** * nylas-be: the request handlers of [server.js] over the two mongoose models

    A shallow embedding of the Express application of [src/server.js], of the
    [Email] model of [src/models/emails.js] and of the [Reply] model
    ([models/reply.js]).

    Handler code is written in a state-and-exception monad over a [World]
    that holds the two collections, the response object, the [async]
    callbacks parked at an [await], the promises of the current batch and a
    trace of every call that leaves the process and of every log line.  An
    [async] callback is split where it awaits a call of the outside: the
    part before runs when the callback is called, the part after when the
    event loop lets that call settle.  Which parked callback goes next is
    the outside's choice: the loop takes a schedule, and the theorems hold
    for all of them.

    What the outside answers is read from an [Env]: the mock user store
    ([./utils/mock-db] is not among the sources), the mailbox gateway, the
    completion engine, and the faults of the document store.  The store
    itself is modelled: it keeps the unique index that [emails.js] declares
    and applies the [required] validator of the [Reply] schema. *)

From Stdlib Require Import ZArith String Ascii.
From stdpp Require Import base option list strings.

Local Open Scope string_scope.
Local Open Scope Z_scope.
Local Open Scope nat_scope.

(** ** JavaScript values that the handlers look at *)

(** An [Error] object: the handlers read [name], [code] and [message]. *)
Record JsError := mkError {
  error_name : string;
  error_code : option Z;
  error_message : string;
}.

Definition TypeError (msg : string) : JsError :=
  mkError "TypeError" None msg.

Definition ReferenceError (msg : string) : JsError :=
  mkError "ReferenceError" None msg.

(** A template literal prints a missing field as [undefined]. *)
Definition template_string (v : option string) : string :=
  match v with
  | Some s => s
  | None => "undefined"
  end.

Definition newline : string := String (ascii_of_nat 10) EmptyString.

(** ** Data model *)

(** What [mockDb] stores for a mailbox (written by [/nylas/exchange-mailbox-token]). *)
Record User := mkUser {
  user_id : string;
  accessToken : string;
  emailAddress : string;
}.

(** The gateway's thread objects, as far as [server.js] reads them. *)
Record Participant := mkParticipant {
  participant_name : string;
  email : option string;
}.

Record Message := mkMessage {
  message_id : string;
  from : list Participant;
}.

(** [messages] is present in the expanded view only. *)
Record Thread := mkThread {
  thread_id : string;
  subject : option string;
  snippet : option string;
  messages : option (list Message);
}.

(** A document of the [Email] model ([EmailSchema], emails.js:3-21).  Every
    path is an optional [String]; the timestamps and [_id] that mongoose adds
    are left out, no handler reads them. *)
Record EmailRecord := mkEmail {
  email_subject : option string;
  email_snippet : option string;
  fromEmail : option string;
  ownEmail : option string;
  userId : option string;
}.

(** A document of the [Reply] model ([ReplySchema]): [body] is optional
    ([defaultValue] is no mongoose option, so nothing fills it in),
    [userEmail] is required. *)
Record ReplyRecord := mkReply {
  body : option string;
  userEmail : string;
}.

(** The argument of [openai.createCompletion] (server.js:207-214). *)
Record CompletionRequest := mkCompletionRequest {
  model : string;
  prompt : string;
  max_tokens : nat;
  top_p : Z;
  frequency_penalty : Z;
  presence_penalty : Z;
}.

(** [response.data]: the [text] of each choice. *)
Record CompletionResponse := mkCompletionResponse {
  choices : list string;
}.

Record File := mkFile {
  file_id : string;
}.

(** What [file.download()] resolves to, when it resolves to an object. *)
Record FileData := mkFileData {
  data_body : option string;
}.

Global Instance JsError_eq_dec : EqDecision JsError.
Proof. solve_decision. Defined.
Global Instance User_eq_dec : EqDecision User.
Proof. solve_decision. Defined.
Global Instance Participant_eq_dec : EqDecision Participant.
Proof. solve_decision. Defined.
Global Instance Message_eq_dec : EqDecision Message.
Proof. solve_decision. Defined.
Global Instance Thread_eq_dec : EqDecision Thread.
Proof. solve_decision. Defined.
Global Instance EmailRecord_eq_dec : EqDecision EmailRecord.
Proof. solve_decision. Defined.
Global Instance ReplyRecord_eq_dec : EqDecision ReplyRecord.
Proof. solve_decision. Defined.
Global Instance CompletionRequest_eq_dec : EqDecision CompletionRequest.
Proof. solve_decision. Defined.

(** ** The outside world *)

(** An awaited promise of the outside, once it has settled. *)
Inductive Settled (A : Type) :=
| Fulfilled (a : A)
| Rejected (e : JsError).
Arguments Fulfilled {A} a.
Arguments Rejected {A} e.

(** Every answer the process gets from outside.  A storage fault is any
    error a mongoose call may reject with besides those the schema itself
    causes; faults of the per-item calls are keyed by the item's position
    in its batch. *)
Record Env := mkEnv {
  (** [mockDb.findUser] ([./utils/mock-db], not part of these sources) *)
  findUser : string -> option User;
  (** the threads of the mailbox an access token opens, most recently
      updated first, or the gateway's failure *)
  mailbox : string -> Settled (list Thread);
  messages_find : string -> option string -> Settled Message;
  files_find : string -> option string -> Settled File;
  file_download : File -> Settled (option FileData);
  (** the [name] the MongoDB driver in use gives its server errors *)
  driver_error_name : string;
  emails_create_fault : nat -> option JsError;
  emails_find_fault : option JsError;
  createCompletion : nat -> CompletionRequest -> Settled CompletionResponse;
  reply_create_fault : nat -> option JsError;
  reply_find_fault : option JsError;
}.

(** ** Observable effects *)

Inductive Event :=
| MockDbFindUser (authorization : string)
| NylasThreadsList (token : string) (limit : nat) (expanded : bool)
| NylasMessagesFind (token : string) (id : option string)
| NylasFilesFind (token : string) (id : option string)
| NylasFileDownload (f : File)
| EmailsCreate (doc : EmailRecord)
| EmailsFind (own : string)
| OpenAiCreateCompletion (req : CompletionRequest)
| ReplyCreate (doc : ReplyRecord)
| ReplyFind (owner : string)
| ConsoleLog (args : list string)
| ConsoleError (msg : string) (error : option JsError).

(** Calls to the email provider or the completion engine. *)
Definition external_call (ev : Event) : bool :=
  match ev with
  | NylasThreadsList _ _ _ | NylasMessagesFind _ _ | NylasFilesFind _ _
  | NylasFileDownload _ | OpenAiCreateCompletion _ => true
  | _ => false
  end.

(** Reads and writes of the two archives. *)
Definition archive_access (ev : Event) : bool :=
  match ev with
  | EmailsCreate _ | EmailsFind _ | ReplyCreate _ | ReplyFind _ => true
  | _ => false
  end.

(** ** The response object and what a handler hands back to Express *)

Inductive Body :=
| JsonString (s : string)
| JsonThreads (ts : list Thread)
| JsonMessage (m : Message)
| JsonMessageObject (msg : string)
| RawEnd (data : option string).

(** [sent] is what the caller receives; Express sends nothing of its own
    when a handler returns, whatever the returned value. *)
Record Response := mkResponse {
  statusCode : nat;
  sent : option Body;
}.

Inductive JsReturn :=
| RetUndefined
| RetResponse
| RetTrue
| RetReplies (rs : list ReplyRecord).

(** ** Suspended asynchronous callbacks *)

(** An [async] callback that has reached an [await] on a call of the
    outside: what it waits for and what its closure holds. *)
Inductive Task :=
| AwaitEmailsCreate (slot : nat) (doc : EmailRecord)
| AwaitCreateCompletion (slot : nat) (user : User) (req : CompletionRequest)
| AwaitReplyCreate (slot : nat) (doc : ReplyRecord).

Definition task_slot (t : Task) : nat :=
  match t with
  | AwaitEmailsCreate slot _ => slot
  | AwaitCreateCompletion slot _ _ => slot
  | AwaitReplyCreate slot _ => slot
  end.

(** The handler of [/nylas/read-emails] suspended at
    [await Promise.all(createEmailPromises)]: the number of promises and
    the [threads] of its closure. *)
Record Join := mkJoin {
  join_size : nat;
  join_threads : list Thread;
}.

Record World := mkWorld {
  emails_db : list EmailRecord;
  replies_db : list ReplyRecord;
  res : Response;
  trace : list Event;
  pending : list Task;
  settled : list (nat * Settled unit);
  join : option Join;
  handler_result : option (Settled JsReturn);
}.

(** A request arrives: nothing sent, nothing running. *)
Definition init_world (emails : list EmailRecord) (replies : list ReplyRecord) : World :=
  mkWorld emails replies (mkResponse 200 None) [] [] [] None None.

Definition set_emails_db (v : list EmailRecord) (w : World) : World :=
  mkWorld v (replies_db w) (res w) (trace w) (pending w) (settled w) (join w) (handler_result w).
Definition set_replies_db (v : list ReplyRecord) (w : World) : World :=
  mkWorld (emails_db w) v (res w) (trace w) (pending w) (settled w) (join w) (handler_result w).
Definition set_res (v : Response) (w : World) : World :=
  mkWorld (emails_db w) (replies_db w) v (trace w) (pending w) (settled w) (join w) (handler_result w).
Definition set_trace (v : list Event) (w : World) : World :=
  mkWorld (emails_db w) (replies_db w) (res w) v (pending w) (settled w) (join w) (handler_result w).
Definition set_pending (v : list Task) (w : World) : World :=
  mkWorld (emails_db w) (replies_db w) (res w) (trace w) v (settled w) (join w) (handler_result w).
Definition set_settled (v : list (nat * Settled unit)) (w : World) : World :=
  mkWorld (emails_db w) (replies_db w) (res w) (trace w) (pending w) v (join w) (handler_result w).
Definition set_join (v : option Join) (w : World) : World :=
  mkWorld (emails_db w) (replies_db w) (res w) (trace w) (pending w) (settled w) v (handler_result w).
Definition set_handler_result (v : option (Settled JsReturn)) (w : World) : World :=
  mkWorld (emails_db w) (replies_db w) (res w) (trace w) (pending w) (settled w) (join w) v.

(** ** The monad of handler code *)

(** A run of JavaScript code ends with a value, with a throw, or at an
    [await] whose continuation has been parked in the world. *)
Inductive Completion (A : Type) :=
| Normal (a : A)
| Throw (e : JsError)
| Suspend.
Arguments Normal {A} a.
Arguments Throw {A} e.
Arguments Suspend {A}.

Definition M (A : Type) : Type := World -> Completion A * World.

Definition ret {A} (a : A) : M A := fun w => (Normal a, w).

Definition bind {A B} (m : M A) (k : A -> M B) : M B :=
  fun w =>
    match m w with
    | (Normal a, w') => k a w'
    | (Throw e, w') => (Throw e, w')
    | (Suspend, w') => (Suspend, w')
    end.

Definition throw {A} (e : JsError) : M A := fun w => (Throw e, w).

(** [try { body } catch (error) { handler }]: a suspension inside [body]
    leaves the block to the continuation, which re-enters it. *)
Definition try_catch {A} (body : M A) (handler : JsError -> M A) : M A :=
  fun w =>
    match body w with
    | (Throw e, w') => handler e w'
    | r => r
    end.

Declare Scope js_scope.
Delimit Scope js_scope with js.
Notation "x <- m ;; k" := (bind m (fun x => k))
  (at level 100, m at next level, right associativity) : js_scope.
Notation "m ;;; k" := (bind m (fun _ => k))
  (at level 100, right associativity) : js_scope.
Local Open Scope js_scope.

(** [await p] on a promise of the outside that settles. *)
Definition await {A} (p : Settled A) : M A :=
  match p with
  | Fulfilled a => ret a
  | Rejected e => throw e
  end.

Definition emit (ev : Event) : M unit :=
  fun w => (Normal tt, set_trace (trace w ++ [ev]) w).

(** Park the running callback at its [await]. *)
Definition suspend {A} (t : Task) : M A :=
  fun w => (Suspend, set_pending (pending w ++ [t]) w).

Definition console_log (args : list string) : M unit := emit (ConsoleLog args).
Definition console_error (msg : string) (error : option JsError) : M unit :=
  emit (ConsoleError msg error).

(** [res.status(code)] *)
Definition res_status (code : nat) : M unit :=
  fun w => (Normal tt, set_res (mkResponse code (sent (res w))) w).

(** [res.json(b)], [res.send(b)], [res.end(b)]: a second send throws. *)
Definition res_send (b : Body) : M JsReturn :=
  fun w =>
    match sent (res w) with
    | Some _ => (Throw (mkError "Error" None "Cannot set headers after they are sent to the client"), w)
    | None => (Normal RetResponse, set_res (mkResponse (statusCode (res w)) (Some b)) w)
    end.

(** ** The [Email] and [Reply] models *)

(** [EmailSchema.index({ userId: 1, subject: 1, snippet: 1 }, { unique: true })]
    (emails.js:23): the paths the unique index compares; a missing path
    is indexed as null and equals another missing one. *)
Definition index_key (d : EmailRecord) : option string * option string * option string :=
  (userId d, email_subject d, email_snippet d).

Definition same_key (d1 d2 : EmailRecord) : bool :=
  bool_decide (index_key d1 = index_key d2).

(** The server's answer to an insert that the unique index refuses. *)
Definition duplicate_key_error (env : Env) : JsError :=
  mkError (driver_error_name env) (Some 11000%Z) "E11000 duplicate key error".

(** The insert of [emails.create(doc)] reaching the store: a fault rejects
    it, the unique index rejects a second document with the same key,
    otherwise the document is added. *)
Definition emails_insert (env : Env) (slot : nat) (doc : EmailRecord) : M unit :=
  fun w =>
    match emails_create_fault env slot with
    | Some e => (Throw e, w)
    | None =>
        if existsb (same_key doc) (emails_db w)
        then (Throw (duplicate_key_error env), w)
        else (Normal tt, set_emails_db (emails_db w ++ [doc]) w)
    end.

(** [await emails.find({ ownEmail })] *)
Definition emails_find (env : Env) (own : string) : M (list EmailRecord) :=
  (emit (EmailsFind own);;;
   fun w =>
     match emails_find_fault env with
     | Some e => (Throw e, w)
     | None => (Normal (filter (fun d => ownEmail d = Some own) (emails_db w)), w)
     end)%js.

Definition validation_error : JsError :=
  mkError "ValidationError" None "Reply validation failed: userEmail: Path `userEmail` is required.".

(** The insert of [reply.create(doc)]: the [required] validator of
    [userEmail] refuses the empty string before anything is sent. *)
Definition reply_insert (env : Env) (slot : nat) (doc : ReplyRecord) : M unit :=
  fun w =>
    if String.eqb (userEmail doc) ""
    then (Throw validation_error, w)
    else
      match reply_create_fault env slot with
      | Some e => (Throw e, w)
      | None => (Normal tt, set_replies_db (replies_db w ++ [doc]) w)
      end.

(** [await reply.find({ userEmail })] *)
Definition reply_find (env : Env) (owner : string) : M (list ReplyRecord) :=
  (emit (ReplyFind owner);;;
   fun w =>
     match reply_find_fault env with
     | Some e => (Throw e, w)
     | None => (Normal (filter (fun d => userEmail d = owner) (replies_db w)), w)
     end)%js.

(** ** The mailbox gateway *)

Definition thread_view (expanded : bool) (t : Thread) : Thread :=
  if expanded then t
  else mkThread (thread_id t) (subject t) (snippet t) None.

(** [Nylas.with(token).threads.list({ limit, expanded })]: the first
    [limit] threads of the mailbox, with their messages when expanded. *)
Definition threads_list (env : Env) (token : string) (limit : nat) (expanded : bool)
  : Settled (list Thread) :=
  match mailbox env token with
  | Fulfilled ts => Fulfilled (thread_view expanded <$> take limit ts)
  | Rejected e => Rejected e
  end.

(** ** Promises of a batch *)

Definition settle (slot : nat) (r : Settled unit) (w : World) : World :=
  set_settled (settled w ++ [(slot, r)]) w.

(** Call an [async] callback: it runs to its end or to its first [await];
    its promise settles in the first case. *)
Definition spawn (slot : nat) (m : M unit) (w : World) : World :=
  match m w with
  | (Normal _, w') => settle slot (Fulfilled tt) w'
  | (Throw e, w') => settle slot (Rejected e) w'
  | (Suspend, w') => w'
  end.

(** [array.map(async ...)] and [array.forEach(async ...)]: the callback is
    called on each element in order, none is waited for. *)
Fixpoint spawn_all {A} (f : nat -> A -> M unit) (slot : nat) (l : list A) (w : World) : World :=
  match l with
  | [] => w
  | x :: l' => spawn_all f (S slot) l' (spawn slot (f slot x) w)
  end.

Definition start_all {A} (f : nat -> A -> M unit) (l : list A) : M unit :=
  fun w => (Normal tt, spawn_all f 0 l w).

Definition is_rejected (p : nat * Settled unit) : bool :=
  match p.2 with
  | Rejected _ => true
  | Fulfilled _ => false
  end.

Definition slot_settled (l : list (nat * Settled unit)) (i : nat) : bool :=
  existsb (fun p => Nat.eqb p.1 i) l.

(** [Promise.all] over the promises of slots [0..n-1]: rejected as soon as
    one of them is, fulfilled once all are, pending otherwise. *)
Definition promise_all (n : nat) (l : list (nat * Settled unit)) : option (Settled unit) :=
  match find is_rejected l with
  | Some (_, Rejected e) => Some (Rejected e)
  | _ => if forallb (slot_settled l) (seq 0 n) then Some (Fulfilled tt) else None
  end.

(** ** server.js *)

Record Request := mkRequest {
  (** [req.headers.authorization] *)
  authorization : option string;
  (** [req.query.id] *)
  query_id : option string;
}.

(** [!req.headers.authorization]: a missing header and the empty string
    are both falsy. *)
Definition truthy (h : option string) : option string :=
  match h with
  | Some EmptyString => None
  | _ => h
  end.

(** Middleware to check if the user is authenticated (server.js:119-135).
    [next] stands for [res.locals.user = user; next()]. *)
Definition isAuthenticated (env : Env) (req : Request) (next : User -> M JsReturn)
  : M JsReturn :=
  match truthy (authorization req) with
  | None => res_status 401;;; res_send (JsonString "Unauthorized")
  | Some token =>
      emit (MockDbFindUser token);;;
      match findUser env token with
      | None => res_status 401;;; res_send (JsonString "Unauthorized")
      | Some user => next user
      end
  end.

(** The value of an expression, or what evaluating it throws. *)
Definition eval {A} (v : JsError + A) : M A :=
  match v with
  | inl e => throw e
  | inr a => ret a
  end.

(** [thread.messages[0].from[0].email] (server.js:149): reading a property
    of [undefined] throws. *)
Definition first_sender_email (thread : Thread) : JsError + option string :=
  match messages thread with
  | None => inl (TypeError "Cannot read properties of undefined (reading '0')")
  | Some [] => inl (TypeError "Cannot read properties of undefined (reading 'from')")
  | Some (m :: _) =>
      match from m with
      | [] => inl (TypeError "Cannot read properties of undefined (reading 'email')")
      | p :: _ => inr (email p)
      end
  end.

(** The object literal passed to [emails.create] (server.js:146-152). *)
Definition email_doc (user : User) (thread : Thread) : JsError + EmailRecord :=
  match first_sender_email thread with
  | inl e => inl e
  | inr sender =>
      inr (mkEmail (subject thread) (snippet thread) sender
             (Some (emailAddress user)) (Some (user_id user)))
  end.

(** The [catch] block of the per-thread callback (server.js:153-159). *)
Definition createEmail_catch (error : JsError) : M unit :=
  if String.eqb (error_name error) "MongoError"
     && bool_decide (error_code error = Some 11000%Z)
  then console_log ["Email with the same subject and snippet already exists"]
  else console_error "Unexpected error:" (Some error).

(** The per-thread callback up to [await emails.create(...)]
    (server.js:144-152). *)
Definition createEmail_start (user : User) (slot : nat) (thread : Thread) : M unit :=
  try_catch
    (doc <- eval (email_doc user thread);;
     emit (EmailsCreate doc);;;
     suspend (AwaitEmailsCreate slot doc))
    createEmail_catch.

(** The same callback from the moment [emails.create] settles. *)
Definition createEmail_resume (env : Env) (slot : nat) (doc : EmailRecord) : M unit :=
  try_catch (emails_insert env slot doc) createEmail_catch.

(** [await Promise.all(createEmailPromises)] (server.js:163). *)
Definition await_all (n : nat) (threads : list Thread) : M JsReturn :=
  fun w => (Suspend, set_join (Some (mkJoin n threads)) w).

(** The handler from the moment [Promise.all] settles (server.js:162-168). *)
Definition read_emails_resume (j : Join) (r : Settled unit) : M JsReturn :=
  try_catch
    (await r;;;
     res_status 201;;;
     res_send (JsonThreads (join_threads j)))
    (fun error =>
       console_error "Error in Promise.all:" (Some error);;;
       res_status 500;;;
       res_send (JsonMessageObject "Internal server error");;;
       ret RetUndefined).

(** Route for getting 5 latest emails (server.js:138-169). *)
Definition read_emails (env : Env) (user : User) : M JsReturn :=
  emit (NylasThreadsList (accessToken user) 5 true);;;
  threads <- await (threads_list env (accessToken user) 5 true);;
  start_all (createEmail_start user) threads;;;
  await_all (length threads) threads.

(** Route for getting an individual message by id (server.js:172-179). *)
Definition get_message (env : Env) (req : Request) (user : User) : M JsReturn :=
  emit (NylasMessagesFind (accessToken user) (query_id req));;;
  message <- await (messages_find env (accessToken user) (query_id req));;
  res_send (JsonMessage message).

(** Route for downloading a file (server.js:182-191). *)
Definition get_file (env : Env) (req : Request) (user : User) : M JsReturn :=
  emit (NylasFilesFind (accessToken user) (query_id req));;;
  file <- await (files_find env (accessToken user) (query_id req));;
  emit (NylasFileDownload file);;;
  fileData <- await (file_download env file);;
  res_send (RawEnd (fileData ≫= data_body)).

(** The template literal of server.js:206. *)
Definition reply_prompt (subj snip : option string) : string :=
  "Subject: " ++ template_string subj ++ " " ++ newline ++ ",Body: "
  ++ template_string snip ++ "," ++ newline
  ++ " Please write a reply for the given email with subject and body sperated".

Definition completion_request (subj snip : option string) : CompletionRequest :=
  mkCompletionRequest "text-davinci-003" (reply_prompt subj snip) 400 1 0 0.

(** The per-record callback up to [await openai.createCompletion(...)]
    (server.js:205-214). *)
Definition generateReply_start (user : User) (slot : nat) (e : EmailRecord) : M unit :=
  let req := completion_request (email_subject e) (email_snippet e) in
  emit (OpenAiCreateCompletion req);;;
  suspend (AwaitCreateCompletion slot user req).

(** [response.data.choices[0].text] *)
Definition first_choice_text (response : CompletionResponse) : M string :=
  match choices response with
  | [] => throw (TypeError "Cannot read properties of undefined (reading 'text')")
  | text :: _ => ret text
  end.

(** The same callback from the completion to [await reply.create(...)]
    (server.js:215-219). *)
Definition generateReply_resume (env : Env) (slot : nat) (user : User)
    (req : CompletionRequest) : M unit :=
  response <- await (createCompletion env slot req);;
  logged <- first_choice_text response;;
  console_log ["this is response"; logged];;;
  text <- first_choice_text response;;
  let doc := mkReply (Some text) (emailAddress user) in
  emit (ReplyCreate doc);;;
  suspend (AwaitReplyCreate slot doc).

(** Route for reading email from database and generating replies
    (server.js:200-222). *)
Definition read_email_gpt (env : Env) (user : User) : M JsReturn :=
  allEmails <- emails_find env (emailAddress user);;
  start_all (generateReply_start user) allEmails;;;
  ret RetTrue.

(** What an identifier is bound to, as far as the handlers care. *)
Inductive Binding :=
| BoundError (e : JsError)
| BoundOther.

(** The bindings of the module (server.js:1-16, 18, 35, 46, 119, 194, 197),
    those Node gives every module, the globals the file uses, and the
    bindings of the handler of [/nylas/read-replies] (its parameters and
    [user]; [replies] is local to the [try] block). *)
Definition module_scope : list (string * Binding) :=
  (fun x => (x, BoundOther)) <$>
  ["express"; "cors"; "dotenv"; "mockDb"; "mongoose"; "Nylas"; "WebhookTriggers";
   "Scope"; "openWebhookTunnel"; "emails"; "Configuration"; "OpenAIApi"; "reply";
   "app"; "connectToMongoDB"; "port"; "CLIENT_URI"; "isAuthenticated";
   "configuration"; "openai";
   "exports"; "require"; "module"; "__filename"; "__dirname";
   "console"; "process"; "JSON";
   "req"; "res"; "user"].

Fixpoint lookup_binding (x : string) (scope : list (string * Binding)) : option Binding :=
  match scope with
  | [] => None
  | (y, b) :: scope' => if String.eqb x y then Some b else lookup_binding x scope'
  end.

(** Evaluating an identifier: an unbound one throws a [ReferenceError]. *)
Definition identifier (scope : list (string * Binding)) (x : string) : M Binding :=
  match lookup_binding x scope with
  | Some b => ret b
  | None => throw (ReferenceError (x ++ " is not defined"))
  end.

(** [b.message] *)
Definition message_of (b : Binding) : string :=
  match b with
  | BoundError e => error_message e
  | BoundOther => "undefined"
  end.

(** Route for displaying replies (server.js:225-233); the [catch] block
    binds [err] and evaluates [e.message]. *)
Definition read_replies (env : Env) (user : User) : M JsReturn :=
  try_catch
    (replies <- reply_find env (emailAddress user);;
     ret (RetReplies replies))
    (fun err =>
       e <- identifier (("err", BoundError err) :: module_scope) "e";;
       console_error (message_of e) None;;;
       ret RetUndefined).

(** The routes registered behind [isAuthenticated]. *)
Inductive Route :=
| ReadEmails
| GetMessage
| GetFile
| ReadEmailGpt
| ReadReplies.

Definition route_path (r : Route) : string :=
  match r with
  | ReadEmails => "/nylas/read-emails"
  | GetMessage => "/nylas/message"
  | GetFile => "/nylas/file"
  | ReadEmailGpt => "/nylas/read-email-gpt"
  | ReadReplies => "/nylas/read-replies"
  end.

Definition handler (env : Env) (r : Route) (req : Request) (user : User) : M JsReturn :=
  match r with
  | ReadEmails => read_emails env user
  | GetMessage => get_message env req user
  | GetFile => get_file env req user
  | ReadEmailGpt => read_email_gpt env user
  | ReadReplies => read_replies env user
  end.

(** ** The event loop *)

(** The promise of the function Express called settles when that function
    ends; Express does nothing with either outcome. *)
Definition finish (r : Completion JsReturn * World) : World :=
  match r with
  | (Normal v, w) => set_handler_result (Some (Fulfilled v)) w
  | (Throw e, w) => set_handler_result (Some (Rejected e)) w
  | (Suspend, w) => w
  end.

(** Run the handler parked at [Promise.all] as soon as that has settled. *)
Definition react (w : World) : World :=
  match join w with
  | None => w
  | Some j =>
      match promise_all (join_size j) (settled w) with
      | None => w
      | Some r => finish (read_emails_resume j r (set_join None w))
      end
  end.

(** [app.get(path, isAuthenticated, handler)] serving one request, up to
    the point where every function has returned or is parked. *)
Definition app (env : Env) (r : Route) (req : Request) (w : World) : World :=
  react (finish (isAuthenticated env req (handler env r req) w)).

(** A parked callback whose awaited call has settled runs on. *)
Definition resume (env : Env) (t : Task) : M unit :=
  match t with
  | AwaitEmailsCreate slot doc => createEmail_resume env slot doc
  | AwaitCreateCompletion slot user req => generateReply_resume env slot user req
  | AwaitReplyCreate slot doc => reply_insert env slot doc
  end.

(** One turn of the loop: the awaited call of one parked callback settles
    (the [k]-th, counted cyclically: the outside decides which). *)
Definition step (env : Env) (k : nat) (w : World) : World :=
  let i := k mod length (pending w) in
  match pending w !! i with
  | None => w
  | Some t => react (spawn (task_slot t) (resume env t) (set_pending (delete i (pending w)) w))
  end.

(** The loop under a schedule, one pick per turn. *)
Definition event_loop (env : Env) (picks : list nat) (w : World) : World :=
  fold_left (fun w k => step env k w) picks w.

(** A request served from arrival until the schedule is used up. *)
Definition serve (env : Env) (r : Route) (req : Request) (picks : list nat)
    (emails : list EmailRecord) (replies : list ReplyRecord) : World :=
  event_loop env picks (app env r req (init_world emails replies)).

(** ** Properties of the archives and of a run *)

Local Open Scope list_scope.

(** The account a request resolves to, if any. *)
Definition authenticated (env : Env) (req : Request) : option User :=
  truthy (authorization req) ≫= findUser env.

(** No two documents agree on the paths of the unique index. *)
Definition unique_index (db : list EmailRecord) : Prop :=
  NoDup (index_key <$> db).

(** A document with the same indexed paths is in the collection. *)
Definition archived (doc : EmailRecord) (db : list EmailRecord) : Prop :=
  index_key doc ∈ index_key <$> db.

(** [db'] is [db] with documents appended whose keys are new and
    pairwise different. *)
Definition grows (db db' : list EmailRecord) : Prop :=
  ∃ added,
    db' = db ++ added
    ∧ NoDup (index_key <$> added)
    ∧ ∀ d, d ∈ added → ¬ archived d db.

(** What the [catch] block of the per-thread callback writes for [e]. *)
Definition insert_log (e : JsError) : Event :=
  if String.eqb (error_name e) "MongoError"
     && bool_decide (error_code e = Some 11000%Z)
  then ConsoleLog ["Email with the same subject and snippet already exists"]
  else ConsoleError "Unexpected error:" (Some e).

(** The world once an insert has settled and its callback has run on. *)
Definition after_insert (env : Env) (slot : nat) (doc : EmailRecord) (w : World) : World :=
  match emails_create_fault env slot with
  | Some e => set_trace (trace w ++ [insert_log e]) w
  | None =>
      if existsb (same_key doc) (emails_db w)
      then set_trace (trace w ++ [insert_log (duplicate_key_error env)]) w
      else set_emails_db (emails_db w ++ [doc]) w
  end.

(** What calling the per-thread callback on each thread leaves behind:
    the trace, the parked callbacks, the promises already settled. *)
Definition start_event (user : User) (t : Thread) : Event :=
  match email_doc user t with
  | inr doc => EmailsCreate doc
  | inl e => insert_log e
  end.

Fixpoint start_tasks (user : User) (slot : nat) (threads : list Thread) : list Task :=
  match threads with
  | [] => []
  | t :: threads' =>
      match email_doc user t with
      | inr doc => AwaitEmailsCreate slot doc :: start_tasks user (S slot) threads'
      | inl _ => start_tasks user (S slot) threads'
      end
  end.

Fixpoint start_settled (user : User) (slot : nat) (threads : list Thread)
  : list (nat * Settled unit) :=
  match threads with
  | [] => []
  | t :: threads' =>
      match email_doc user t with
      | inr _ => start_settled user (S slot) threads'
      | inl _ => (slot, Fulfilled tt) :: start_settled user (S slot) threads'
      end
  end.

(** The events up to the end of [threads.map]. *)
Definition ingest_prefix (token : string) (user : User) (threads : list Thread) : list Event :=
  [MockDbFindUser token; NylasThreadsList (accessToken user) 5 true]
  ++ (start_event user <$> threads).

(** What holds of an ingestion of [threads] at every turn of the loop,
    whatever the handler's own state. *)
Record ingest_core (env : Env) (token : string) (user : User) (threads : list Thread)
    (emails : list EmailRecord) (replies : list ReplyRecord) (w : World) : Prop :=
  mkIngestCore {
  inv_settled : Forall (fun p => p.2 = Fulfilled tt) (settled w);
  inv_tasks : pending w ⊆ start_tasks user 0 threads;
  inv_slots :
    (task_slot <$> pending w) ++ (fst <$> settled w) ≡ₚ seq 0 (length threads);
  inv_attempts :
    ∀ i doc,
      AwaitEmailsCreate i doc ∈ start_tasks user 0 threads →
      AwaitEmailsCreate i doc ∈ pending w
      ∨ ((i, Fulfilled tt) ∈ settled w
         ∧ (emails_create_fault env i = None → archived doc (emails_db w)));
  inv_malformed : start_settled user 0 threads ⊆ settled w;
  inv_trace :
    ∃ logs,
      trace w = ingest_prefix token user threads ++ logs
      ∧ Forall (fun ev => ∃ e, ev = insert_log e) logs;
  inv_emails : grows emails (emails_db w);
  inv_replies : replies_db w = replies;
}.

(** The handler is parked at [Promise.all] and has sent nothing. *)
Definition parked (threads : list Thread) (w : World) : Prop :=
  join w = Some (mkJoin (length threads) threads)
  ∧ res w = mkResponse 200 None
  ∧ handler_result w = None.

(** The handler has answered 201 with the threads and returned. *)
Definition answered (threads : list Thread) (w : World) : Prop :=
  join w = None
  ∧ res w = mkResponse 201 (Some (JsonThreads threads))
  ∧ handler_result w = Some (Fulfilled RetResponse).

Definition ingest_inv (env : Env) (token : string) (user : User) (threads : list Thread)
    (emails : list EmailRecord) (replies : list ReplyRecord) (w : World) : Prop :=
  ingest_core env token user threads emails replies w
  ∧ (pending w ≠ [] → parked threads w)
  ∧ (pending w = [] → answered threads w).

Create HintDb respects.

(** Code every run of which takes a world to one related by [R]. *)
Definition respects {A} (R : relation World) (m : M A) : Prop :=
  ∀ w, R w (m w).2.

Definition respects_world (R : relation World) (f : World → World) : Prop :=
  ∀ w, R w (f w).

(** The [Email] collection has only got documents with new keys. *)
Definition index_grows : relation World :=
  fun w w' => grows (emails_db w) (emails_db w').

(** The response, the parked handler and the handler's result are as
    they were. *)
Definition handler_untouched : relation World :=
  fun w w' =>
    join w' = join w ∧ res w' = res w ∧ handler_result w' = handler_result w.


(** ** Reply generation *)

(** The text the completion engine returns for a request: the first
    choice of a call that succeeds. *)
Definition request_text (env : Env) (slot : nat) (req : CompletionRequest) : option string :=
  match createCompletion env slot req with
  | Fulfilled r => head (choices r)
  | Rejected _ => None
  end.

(** The text it returns for the record at position [i] of the batch. *)
Definition completion_text (env : Env) (i : nat) (e : EmailRecord) : option string :=
  request_text env i (completion_request (email_subject e) (email_snippet e)).

(** The callbacks [allEmails.forEach] leaves parked, one per record. *)
Fixpoint reply_tasks (user : User) (slot : nat) (l : list EmailRecord) : list Task :=
  match l with
  | [] => []
  | e :: l' =>
      AwaitCreateCompletion slot user
        (completion_request (email_subject e) (email_snippet e))
      :: reply_tasks user (S slot) l'
  end.

(** One reply per record: owned by the account, its body the text
    returned for that record. *)
Fixpoint expected_replies (env : Env) (user : User) (slot : nat) (l : list EmailRecord)
  : list ReplyRecord :=
  match l with
  | [] => []
  | e :: l' =>
      mkReply (completion_text env slot e) (emailAddress user)
      :: expected_replies env user (S slot) l'
  end.

(** The reply a parked callback is going to store. *)
Definition task_reply (env : Env) (t : Task) : option ReplyRecord :=
  match t with
  | AwaitEmailsCreate _ _ => None
  | AwaitCreateCompletion slot user req =>
      (fun text => mkReply (Some text) (emailAddress user)) <$> request_text env slot req
  | AwaitReplyCreate _ doc => Some doc
  end.

(** A parked callback of reply generation that nothing is going to stop. *)
Definition good_task (env : Env) (t : Task) : Prop :=
  match t with
  | AwaitEmailsCreate _ _ => False
  | AwaitCreateCompletion slot user req =>
      emailAddress user ≠ ""%string
      ∧ reply_create_fault env slot = None
      ∧ is_Some (request_text env slot req)
  | AwaitReplyCreate slot doc =>
      userEmail doc ≠ ""%string ∧ reply_create_fault env slot = None
  end.

(** The awaits a parked callback still has before it. *)
Definition task_weight (t : Task) : nat :=
  match t with
  | AwaitCreateCompletion _ _ _ => 2
  | _ => 1
  end.

Fixpoint pending_weight (l : list Task) : nat :=
  match l with
  | [] => 0
  | t :: l' => task_weight t + pending_weight l'
  end.

Record reply_inv (env : Env) (target : list ReplyRecord) (w : World) : Prop :=
  mkReplyInv {
  rinv_good : Forall (good_task env) (pending w);
  rinv_replies : replies_db w ++ omap (task_reply env) (pending w) ≡ₚ target;
  rinv_join : join w = None;
}.

(** The account's documents, as [emails.find({ ownEmail })] returns them. *)
Definition emails_of (user : User) (emails : list EmailRecord) : list EmailRecord :=
  filter (fun d => ownEmail d = Some (emailAddress user)) emails.

(** C4 as the specification words it: only the completion calls are
    assumed to succeed. *)
Definition reply_generation_as_claimed (env : Env) (req : Request) (user : User)
    (picks : list nat) (emails : list EmailRecord) (replies : list ReplyRecord) : Prop :=
  authenticated env req = Some user →
  (∀ i e, emails_of user emails !! i = Some e → is_Some (completion_text env i e)) →
  2 * length (emails_of user emails) ≤ length picks →
  replies_db (serve env ReadEmailGpt req picks emails replies)
  ≡ₚ replies ++ expected_replies env user 0 (emails_of user emails).

(** ** A concrete outside world *)

Definition account_A : User := mkUser "A" "access-A" "a@x.com".

Definition credential_store (token : string) : option User :=
  if String.eqb token "tok1" then Some account_A else None.

Definition bob : Participant := mkParticipant "Bob" (Some "bob@y.com").

Definition thread_1 : Thread :=
  mkThread "t1" (Some "Hello") (Some "first snippet") (Some [mkMessage "m1" [bob]]).

Definition thread_2 : Thread :=
  mkThread "t2" (Some "Invoice") (Some "second snippet") (Some [mkMessage "m2" [bob]]).

(** A thread without messages. *)
Definition thread_empty : Thread :=
  mkThread "t3" (Some "Draft") (Some "no message yet") (Some []).

Definition gateway_down : JsError := mkError "Error" None "gateway unavailable".

Definition storage_down : JsError :=
  mkError "MongoNetworkError" None "connection closed".

Definition no_fault : nat → option JsError := fun _ => None.

(** The mailbox holds [ts]; the completion engine answers every prompt
    with one choice, [Draft reply]. *)
Definition scenario_env (ts : list Thread) (create_fault reply_fault : nat → option JsError)
    (reply_read_fault : option JsError) : Env :=
  mkEnv credential_store (fun _ => Fulfilled ts)
    (fun _ _ => Rejected gateway_down) (fun _ _ => Rejected gateway_down)
    (fun _ => Rejected gateway_down)
    "MongoError" create_fault None
    (fun _ _ => Fulfilled (mkCompletionResponse ["Draft reply"%string]))
    reply_fault reply_read_fault.

Definition request_tok1 : Request := mkRequest (Some "tok1"%string) None.

Definition request_anonymous : Request := mkRequest None None.

(** A handler parked at [Promise.all] over one promise that was rejected. *)
Definition world_with_rejection : World :=
  mkWorld [] [] (mkResponse 200 None) [] [] [(0, Rejected storage_down)]
    (Some (mkJoin 1 [thread_1])) None.

Definition reply_1 : ReplyRecord := mkReply (Some "Draft reply"%string) "a@x.com".

Definition reply_other : ReplyRecord := mkReply (Some "Elsewhere"%string) "c@z.com".

(** One archived email of account A. *)
Definition email_1 : EmailRecord :=
  mkEmail (Some "Hello"%string) (Some "first snippet"%string)
    (Some "bob@y.com"%string) (Some "a@x.com"%string) (Some "A"%string).

Definition email_2 : EmailRecord :=
  mkEmail (Some "Invoice"%string) (Some "second snippet"%string)
    (Some "bob@y.com"%string) (Some "a@x.com"%string) (Some "A"%string).

(** A later thread with a new subject, and one that repeats the subject
    and snippet of [thread_1]. *)
Definition thread_3 : Thread :=
  mkThread "t4" (Some "Meeting") (Some "third snippet") (Some [mkMessage "m4" [bob]]).

Definition thread_1_again : Thread :=
  mkThread "t5" (Some "Hello") (Some "first snippet") (Some [mkMessage "m5" [bob]]).

Definition email_3 : EmailRecord :=
  mkEmail (Some "Meeting"%string) (Some "third snippet"%string)
    (Some "bob@y.com"%string) (Some "a@x.com"%string) (Some "A"%string).

Definition message_1 : Message := mkMessage "m1" [bob].

(** The gateway knows one message and one file. *)
Definition gateway_env : Env :=
  mkEnv credential_store (fun _ => Fulfilled [])
    (fun _ id => if bool_decide (id = Some "m1"%string)
                 then Fulfilled message_1 else Rejected gateway_down)
    (fun _ id => if bool_decide (id = Some "f1"%string)
                 then Fulfilled (mkFile "f1") else Rejected gateway_down)
    (fun _ => Fulfilled (Some (mkFileData (Some "file content"%string))))
    "MongoError" no_fault None
    (fun _ _ => Fulfilled (mkCompletionResponse []))
    no_fault None.

(** The document store cannot be read. *)
Definition unreadable_env : Env :=
  mkEnv credential_store (fun _ => Fulfilled [])
    (fun _ _ => Rejected gateway_down) (fun _ _ => Rejected gateway_down)
    (fun _ => Rejected gateway_down)
    "MongoError" no_fault (Some storage_down)
    (fun _ _ => Fulfilled (mkCompletionResponse ["Draft reply"%string]))
    no_fault None.

(** An account stored without an email address, and an email archived
    for it. *)
Definition account_blank : User := mkUser "B" "access-B" "".

Definition blank_env : Env :=
  mkEnv (fun token => if String.eqb token "tok2" then Some account_blank else None)
    (fun _ => Fulfilled [])
    (fun _ _ => Rejected gateway_down) (fun _ _ => Rejected gateway_down)
    (fun _ => Rejected gateway_down)
    "MongoError" no_fault None
    (fun _ _ => Fulfilled (mkCompletionResponse ["Draft reply"%string]))
    no_fault None.

Definition email_blank : EmailRecord :=
  mkEmail (Some "Hello"%string) (Some "first snippet"%string)
    (Some "bob@y.com"%string) (Some ""%string) (Some "B"%string).

(** ** Further properties of a run *)

(** The two collections are as they were. *)
Definition stores_untouched : relation World :=
  fun w w' => emails_db w' = emails_db w ∧ replies_db w' = replies_db w.

(** The [Reply] collection has only got documents appended. *)
Definition replies_grow : relation World :=
  fun w w' => replies_db w `prefix_of` replies_db w'.

(** The document an [emails.create] call was made with. *)
Definition created_doc (ev : Event) : option EmailRecord :=
  match ev with
  | EmailsCreate doc => Some doc
  | _ => None
  end.

(** The document a thread yields, when it yields one. *)
Definition derived_doc (user : User) (t : Thread) : option EmailRecord :=
  match email_doc user t with
  | inr doc => Some doc
  | inl _ => None
  end.

Definition is_create_task (t : Task) : bool :=
  match t with
  | AwaitEmailsCreate _ _ => true
  | _ => false
  end.

Definition is_reply_task (t : Task) : bool :=
  match t with
  | AwaitEmailsCreate _ _ => false
  | _ => true
  end.

(** What [reply.create(doc)] stores: nothing when the validator or the
    store refuses. *)
Definition insert_outcome (env : Env) (slot : nat) (doc : ReplyRecord) : option ReplyRecord :=
  if String.eqb (userEmail doc) "" then None
  else
    match reply_create_fault env slot with
    | Some _ => None
    | None => Some doc
    end.

(** The reply a parked callback ends up storing, if any. *)
Definition task_outcome (env : Env) (t : Task) : option ReplyRecord :=
  match t with
  | AwaitEmailsCreate _ _ => None
  | AwaitCreateCompletion slot user req =>
      request_text env slot req ≫= fun text =>
      insert_outcome env slot (mkReply (Some text) (emailAddress user))
  | AwaitReplyCreate slot doc => insert_outcome env slot doc
  end.

(** The reply stored for the record at position [i] of the batch, if its
    own completion and its own insert both succeed. *)
Definition reply_outcome (env : Env) (user : User) (i : nat) (e : EmailRecord)
  : option ReplyRecord :=
  completion_text env i e ≫= fun text =>
  insert_outcome env i (mkReply (Some text) (emailAddress user)).

Fixpoint stored_replies (env : Env) (user : User) (slot : nat) (l : list EmailRecord)
  : list ReplyRecord :=
  match l with
  | [] => []
  | e :: l' =>
      match reply_outcome env user slot e with
      | Some r => r :: stored_replies env user (S slot) l'
      | None => stored_replies env user (S slot) l'
      end
  end.

(** What holds of a reply generation at every turn of the loop, whatever
    fails. *)
Record reply_run (env : Env) (emails : list EmailRecord) (target : list ReplyRecord)
    (w : World) : Prop := mkReplyRun {
  run_tasks : Forall (fun t => is_reply_task t = true) (pending w);
  run_replies : replies_db w ++ omap (task_outcome env) (pending w) ≡ₚ target;
  run_join : join w = None;
  run_emails : emails_db w = emails;
}.

(** The gateway is down for every call. *)
Definition down_env : Env :=
  mkEnv credential_store (fun _ => Rejected gateway_down)
    (fun _ _ => Rejected gateway_down) (fun _ _ => Rejected gateway_down)
    (fun _ => Rejected gateway_down)
    "MongoError" no_fault None
    (fun _ _ => Rejected gateway_down)
    no_fault None.

(** The gateway finds the file but the download fails. *)
Definition download_fails_env : Env :=
  mkEnv credential_store (fun _ => Fulfilled [])
    (fun _ _ => Rejected gateway_down) (fun _ _ => Fulfilled (mkFile "f1"))
    (fun _ => Rejected gateway_down)
    "MongoError" no_fault None
    (fun _ _ => Rejected gateway_down)
    no_fault None.


(** ** Start-up configuration and the hosted-authentication route *)










(** * Proofs *)

(** ** The archive order *)

Lemma grows_refl db : grows db db.
Proof.
  exists []. rewrite app_nil_r. split; [done|]. split; [constructor|].
  intros d Hd. by apply elem_of_nil in Hd.
Qed.

Lemma grows_trans db1 db2 db3 : grows db1 db2 → grows db2 db3 → grows db1 db3.
Proof.
  intros (a1 & -> & Hn1 & Hf1) (a2 & -> & Hn2 & Hf2).
  exists (a1 ++ a2). rewrite app_assoc. split; [done|]. split.
  - rewrite fmap_app. apply NoDup_app. split; [done|]. split; [|done].
    intros k Hk1 Hk2. apply list_elem_of_fmap in Hk2 as (d & -> & Hd).
    apply (Hf2 d Hd). unfold archived. rewrite fmap_app, elem_of_app. by right.
  - intros d Hd. apply elem_of_app in Hd as [Hd|Hd]; [by apply Hf1|].
    intros Ha. apply (Hf2 d Hd). unfold archived in *.
    rewrite fmap_app, elem_of_app. by left.
Qed.

Lemma existsb_same_key doc db :
  existsb (same_key doc) db = true ↔ archived doc db.
Proof.
  unfold archived. rewrite existsb_exists, list_elem_of_fmap. split.
  - intros (d & Hd & Hk). exists d. apply list_elem_of_In in Hd.
    unfold same_key in Hk. by apply bool_decide_eq_true in Hk.
  - intros (d & Hk & Hd). exists d. split; [by apply list_elem_of_In|].
    unfold same_key. by apply bool_decide_eq_true.
Qed.

Lemma grows_insert doc db :
  existsb (same_key doc) db = false → grows db (db ++ [doc]).
Proof.
  intros Hn. exists [doc]. split; [done|]. split.
  - apply NoDup_singleton.
  - intros d Hd. apply list_elem_of_singleton in Hd as ->.
    rewrite <- existsb_same_key. by rewrite Hn.
Qed.

Lemma grows_unique db db' : unique_index db → grows db db' → unique_index db'.
Proof.
  unfold unique_index. intros Hu (a & -> & Hn & Hf).
  rewrite fmap_app. apply NoDup_app. split; [done|]. split; [|done].
  intros k Hk1 Hk2. apply list_elem_of_fmap in Hk2 as (d & -> & Hd).
  by apply (Hf d Hd).
Qed.

Lemma grows_archived doc db db' : grows db db' → archived doc db → archived doc db'.
Proof.
  intros (a & -> & _) Ha. unfold archived in *.
  rewrite fmap_app, elem_of_app. by left.
Qed.

Lemma grows_prefix db db' : grows db db' → db `prefix_of` db'.
Proof. intros (a & -> & _). by exists a. Qed.

(** A document added on top of [db] never has a key [db] already holds. *)
Lemma grows_new_key db db' d :
  grows db db' → d ∈ db' → archived d db → d ∈ db.
Proof.
  intros (a & -> & _ & Hf) Hd Ha.
  apply elem_of_app in Hd as [Hd|Hd]; [done|]. by destruct (Hf d Hd).
Qed.

(** ** The per-thread callback *)

Lemma createEmail_catch_spec e w :
  createEmail_catch e w = (Normal tt, set_trace (trace w ++ [insert_log e]) w).
Proof.
  unfold createEmail_catch, insert_log.
  by destruct (String.eqb _ _ && bool_decide _).
Qed.

(** Whatever the store answers, the callback ends normally. *)
Lemma createEmail_resume_spec env slot doc w :
  createEmail_resume env slot doc w = (Normal tt, after_insert env slot doc w).
Proof.
  unfold createEmail_resume, try_catch, emails_insert, after_insert.
  destruct (emails_create_fault env slot) as [e|].
  - apply createEmail_catch_spec.
  - destruct (existsb (same_key doc) (emails_db w)); [|done].
    apply createEmail_catch_spec.
Qed.

Lemma spawn_createEmail_start user slot t w :
  spawn slot (createEmail_start user slot t) w =
  match email_doc user t with
  | inr doc =>
      set_pending (pending w ++ [AwaitEmailsCreate slot doc])
        (set_trace (trace w ++ [EmailsCreate doc]) w)
  | inl e => settle slot (Fulfilled tt) (set_trace (trace w ++ [insert_log e]) w)
  end.
Proof.
  unfold spawn, createEmail_start, try_catch, bind, eval.
  destruct (email_doc user t) as [e|doc]; simpl.
  - by rewrite createEmail_catch_spec.
  - done.
Qed.

Lemma spawn_all_createEmail user threads : ∀ slot w,
  spawn_all (createEmail_start user) slot threads w =
  mkWorld (emails_db w) (replies_db w) (res w)
    (trace w ++ (start_event user <$> threads))
    (pending w ++ start_tasks user slot threads)
    (settled w ++ start_settled user slot threads)
    (join w) (handler_result w).
Proof.
  induction threads as [|t threads IH]; intros slot w; simpl.
  - rewrite !app_nil_r. by destruct w.
  - rewrite spawn_createEmail_start, IH. unfold start_event at 2.
    destruct (email_doc user t) as [e|doc]; simpl;
      by rewrite <- ?app_assoc.
Qed.

Lemma start_slots user threads : ∀ slot,
  (task_slot <$> start_tasks user slot threads)
  ++ (fst <$> start_settled user slot threads) ≡ₚ seq slot (length threads).
Proof.
  induction threads as [|t threads IH]; intros slot; simpl; [done|].
  destruct (email_doc user t); simpl.
  - rewrite <- Permutation_middle. by rewrite IH.
  - by rewrite IH.
Qed.

Lemma start_tasks_lookup user threads : ∀ slot i t doc,
  threads !! i = Some t → email_doc user t = inr doc →
  AwaitEmailsCreate (slot + i) doc ∈ start_tasks user slot threads.
Proof.
  induction threads as [|t0 threads IH]; intros slot i t doc Hi Hdoc; [done|].
  destruct i as [|i]; simpl in *.
  - injection Hi as ->. rewrite Hdoc, Nat.add_0_r. apply elem_of_cons. by left.
  - replace (slot + S i) with (S slot + i) by lia.
    destruct (email_doc user t0); [|apply elem_of_cons; right]; by eapply IH.
Qed.

Lemma start_settled_lookup user threads : ∀ slot i t e,
  threads !! i = Some t → email_doc user t = inl e →
  (slot + i, Fulfilled tt) ∈ start_settled user slot threads.
Proof.
  induction threads as [|t0 threads IH]; intros slot i t e Hi Hdoc; [done|].
  destruct i as [|i]; simpl in *.
  - injection Hi as ->. rewrite Hdoc, Nat.add_0_r. apply elem_of_cons. by left.
  - replace (slot + S i) with (S slot + i) by lia.
    destruct (email_doc user t0); [apply elem_of_cons; right|]; by eapply IH.
Qed.

Lemma start_tasks_inv user threads : ∀ slot t,
  t ∈ start_tasks user slot threads →
  ∃ i th doc,
    t = AwaitEmailsCreate (slot + i) doc
    ∧ threads !! i = Some th ∧ email_doc user th = inr doc.
Proof.
  induction threads as [|t0 threads IH]; intros slot t Ht; simpl in *.
  - by apply elem_of_nil in Ht.
  - destruct (email_doc user t0) as [e|doc0] eqn:Hd.
    + apply IH in Ht as (i & th & doc & -> & Hi & Hdoc).
      exists (S i), th, doc. split; [f_equal; lia|done].
    + apply elem_of_cons in Ht as [->|Ht].
      * exists 0, t0, doc0. by rewrite Nat.add_0_r.
      * apply IH in Ht as (i & th & doc & -> & Hi & Hdoc).
        exists (S i), th, doc. split; [f_equal; lia|done].
Qed.

Lemma start_settled_fulfilled user threads : ∀ slot,
  Forall (fun p => p.2 = Fulfilled tt) (start_settled user slot threads).
Proof.
  induction threads as [|t threads IH]; intros slot; simpl; [constructor|].
  destruct (email_doc user t); [constructor|]; auto.
Qed.

(** ** [Promise.all] and the parked handler *)

Lemma find_rejected_none l :
  Forall (fun p : nat * Settled unit => p.2 = Fulfilled tt) l →
  find is_rejected l = None.
Proof.
  induction 1 as [|[s r] l Hr _ IH]; [done|]. simpl in *. subst r. done.
Qed.

Lemma slots_settled n l :
  forallb (slot_settled l) (seq 0 n) = true ↔ seq 0 n ⊆ l.*1.
Proof.
  rewrite forallb_forall. split.
  - intros H i Hi. apply list_elem_of_In, H in Hi.
    unfold slot_settled in Hi. apply existsb_exists in Hi as ([s r] & Hin & Heq).
    apply Nat.eqb_eq in Heq. simpl in Heq. subst s.
    apply list_elem_of_fmap. exists (i, r). split; [done|]. by apply list_elem_of_In.
  - intros H i Hi. apply list_elem_of_In, H, list_elem_of_fmap in Hi as ([s r] & -> & Hin).
    unfold slot_settled. apply existsb_exists. exists (s, r).
    split; [by apply list_elem_of_In|]. by apply Nat.eqb_eq.
Qed.

Lemma promise_all_fulfilled n l :
  Forall (fun p : nat * Settled unit => p.2 = Fulfilled tt) l →
  promise_all n l =
  if forallb (slot_settled l) (seq 0 n) then Some (Fulfilled tt) else None.
Proof. intros Hl. unfold promise_all. by rewrite find_rejected_none. Qed.

Lemma react_no_join w : join w = None → react w = w.
Proof. unfold react. by intros ->. Qed.

Lemma react_all_settled w threads :
  parked threads w →
  Forall (fun p => p.2 = Fulfilled tt) (settled w) →
  seq 0 (length threads) ⊆ (settled w).*1 →
  react w =
  set_handler_result (Some (Fulfilled RetResponse))
    (set_res (mkResponse 201 (Some (JsonThreads threads))) (set_join None w)).
Proof.
  intros (Hj & Hr & Hh) Hf Hs. unfold react. rewrite Hj. simpl.
  rewrite promise_all_fulfilled by done.
  apply slots_settled in Hs. rewrite Hs.
  destruct w; simpl in *. subst. reflexivity.
Qed.

Lemma react_waiting w threads :
  parked threads w →
  Forall (fun p => p.2 = Fulfilled tt) (settled w) →
  ¬ seq 0 (length threads) ⊆ (settled w).*1 →
  react w = w.
Proof.
  intros (Hj & Hr & Hh) Hf Hs. unfold react. rewrite Hj. simpl.
  rewrite promise_all_fulfilled by done.
  destruct (forallb _ _) eqn:Hall; [|done].
  by apply slots_settled in Hall.
Qed.

(** ** The invariant of an ingestion *)

Lemma react_inv env token user threads emails replies w :
  ingest_core env token user threads emails replies w →
  parked threads w →
  ingest_inv env token user threads emails replies (react w).
Proof.
  intros Hc Hp. destruct (pending w) as [|t l] eqn:Hpend.
  - assert (seq 0 (length threads) ⊆ (settled w).*1) as Hs.
    { pose proof (inv_slots _ _ _ _ _ _ _ Hc) as Hperm.
      rewrite Hpend in Hperm. simpl in Hperm.
      intros i Hi. by rewrite Hperm. }
    rewrite (react_all_settled w threads Hp (inv_settled _ _ _ _ _ _ _ Hc) Hs).
    destruct Hc. destruct w; simpl in *. subst.
    split; [by constructor|]. split; [done|]. by intros _.
  - assert (¬ seq 0 (length threads) ⊆ (settled w).*1) as Hs.
    { pose proof (inv_slots _ _ _ _ _ _ _ Hc) as Hperm.
      rewrite Hpend in Hperm. simpl in Hperm.
      pose proof (NoDup_seq 0 (length threads)) as Hnd.
      rewrite <- Hperm in Hnd. apply NoDup_cons in Hnd as [Hnot _].
      intros Hsub. apply Hnot. apply elem_of_app. right. apply Hsub.
      rewrite <- Hperm. apply elem_of_cons. by left. }
    rewrite (react_waiting w threads Hp (inv_settled _ _ _ _ _ _ _ Hc) Hs).
    split; [done|]. rewrite Hpend. split; [done|]. intros ?; discriminate.
Qed.

Lemma elem_of_delete_or {A} (l : list A) i x y :
  l !! i = Some x → y ∈ l → y = x ∨ y ∈ delete i l.
Proof.
  intros Hi Hy. apply delete_Permutation in Hi. rewrite Hi in Hy.
  by apply elem_of_cons in Hy.
Qed.

Lemma archived_app_l doc db db' : archived doc db → archived doc (db ++ db').
Proof. unfold archived. rewrite fmap_app, elem_of_app. by left. Qed.

Lemma archived_self doc db : archived doc (db ++ [doc]).
Proof.
  unfold archived. rewrite fmap_app, elem_of_app. right.
  apply list_elem_of_singleton. done.
Qed.

(** The world after an insert has settled, field by field. *)
Lemma after_insert_fields env slot doc w :
  replies_db (after_insert env slot doc w) = replies_db w
  ∧ res (after_insert env slot doc w) = res w
  ∧ pending (after_insert env slot doc w) = pending w
  ∧ settled (after_insert env slot doc w) = settled w
  ∧ join (after_insert env slot doc w) = join w
  ∧ handler_result (after_insert env slot doc w) = handler_result w
  ∧ (∃ logs, trace (after_insert env slot doc w) = trace w ++ logs
             ∧ Forall (fun ev => ∃ e, ev = insert_log e) logs)
  ∧ grows (emails_db w) (emails_db (after_insert env slot doc w))
  ∧ (emails_create_fault env slot = None →
     archived doc (emails_db (after_insert env slot doc w))).
Proof.
  unfold after_insert.
  destruct (emails_create_fault env slot) as [e|];
    [|destruct (existsb (same_key doc) (emails_db w)) eqn:Hex];
    destruct w; simpl in *; repeat split; try done.
  - exists [insert_log e]. split; [done|]. repeat constructor. by exists e.
  - apply grows_refl.
  - eexists [_]. split; [done|]. repeat constructor. by eexists.
  - apply grows_refl.
  - intros _. by apply existsb_same_key.
  - exists []. by rewrite app_nil_r.
  - by apply grows_insert.
  - intros _. apply archived_self.
Qed.

Lemma step_inv env token user threads emails replies k w :
  ingest_inv env token user threads emails replies w →
  ingest_inv env token user threads emails replies (step env k w).
Proof.
  intros (Hc & Hwait & Hdone). unfold step.
  destruct (pending w !! (k mod length (pending w))) as [t|] eqn:Hlook; [|done].
  set (i := k mod length (pending w)) in *.
  assert (pending w ≠ []) as Hne by (intros Hnil; by rewrite Hnil in Hlook).
  specialize (Hwait Hne). destruct Hwait as (Hj & Hr & Hh).
  pose proof (list_elem_of_lookup_2 _ _ _ Hlook) as Hin.
  destruct (start_tasks_inv user threads 0 t (inv_tasks _ _ _ _ _ _ _ Hc _ Hin))
    as (n & th & doc & -> & Hth & Hdoc).
  simpl. unfold spawn. rewrite createEmail_resume_spec.
  set (w1 := set_pending (delete i (pending w)) w).
  destruct (after_insert_fields env n doc w1)
    as (Hrep & Hres & Hpend & Hset & Hjoin & Hhr & (logs & Htr & Hlogs) & Hgr & Har).
  apply react_inv.
  - destruct Hc as [Hs Ht Hsl Hat Hm (logs0 & Htr0 & Hlogs0) Hg Hrp].
    constructor; unfold settle; simpl.
    + rewrite Hset. apply Forall_app. split; [done|]. by repeat constructor.
    + rewrite Hpend. simpl. etrans; [apply list_subseteq_delete|done].
    + rewrite Hpend, Hset. simpl. rewrite fmap_app. simpl.
      rewrite <- Hsl. rewrite (delete_Permutation _ _ _ Hlook) at 2. simpl.
      rewrite app_assoc. by rewrite <- Permutation_cons_append.
    + intros i' doc' Hi'. rewrite Hpend, Hset. simpl.
      destruct (Hat i' doc' Hi') as [Hp|[Hp Ha]].
      * destruct (elem_of_delete_or _ _ _ _ Hlook Hp) as [Heq|Hd]; [|by left].
        injection Heq as -> ->. right. split.
        -- apply elem_of_app. right. by apply list_elem_of_singleton.
        -- done.
      * right. split; [apply elem_of_app; by left|].
        intros Hf. eapply grows_archived; [exact Hgr|]. by apply Ha.
    + rewrite Hset. simpl. by apply list_subseteq_app_l.
    + exists (logs0 ++ logs). rewrite Htr. simpl. rewrite Htr0, app_assoc.
      split; [done|]. by apply Forall_app.
    + eapply grows_trans; [exact Hg|exact Hgr].
    + by rewrite Hrep.
  - unfold parked, settle. simpl. by rewrite Hjoin, Hres, Hhr.
Qed.

Lemma event_loop_inv env (P : World → Prop) :
  (∀ k w, P w → P (step env k w)) →
  ∀ picks w, P w → P (event_loop env picks w).
Proof.
  intros Hstep picks. unfold event_loop.
  induction picks as [|k picks IH]; intros w Hw; simpl; [done|].
  apply IH, Hstep, Hw.
Qed.

Lemma pending_react w : pending (react w) = pending w.
Proof.
  unfold react. destruct (join w) as [j|]; [|done].
  destruct (promise_all _ _) as [[[]|e]|]; [| |done];
    unfold read_emails_resume, try_catch, bind, res_send; simpl;
    by destruct (sent (res w)).
Qed.

Lemma step_pending env token user threads emails replies k w :
  ingest_inv env token user threads emails replies w →
  length (pending (step env k w)) = pred (length (pending w)).
Proof.
  intros (Hc & _ & _). unfold step.
  destruct (pending w !! (k mod length (pending w))) as [t|] eqn:Hlook.
  - pose proof (list_elem_of_lookup_2 _ _ _ Hlook) as Hin.
    destruct (start_tasks_inv user threads 0 t (inv_tasks _ _ _ _ _ _ _ Hc _ Hin))
      as (n & th & doc & -> & _ & _).
    rewrite pending_react. simpl. unfold spawn.
    rewrite createEmail_resume_spec. unfold settle. simpl.
    destruct (after_insert_fields env n doc
                (set_pending (delete (k mod length (pending w)) (pending w)) w))
      as (_ & _ & -> & _).
    simpl. rewrite length_delete by eauto. lia.
  - destruct (pending w) as [|t l]; [done|].
    apply lookup_ge_None in Hlook.
    pose proof (Nat.mod_upper_bound k (length (t :: l))). simpl in *. lia.
Qed.

(** Every turn of the loop settles one insert: the schedule cannot starve
    one. *)
Lemma event_loop_pending env token user threads emails replies picks : ∀ w,
  ingest_inv env token user threads emails replies w →
  length (pending (event_loop env picks w)) = length (pending w) - length picks.
Proof.
  unfold event_loop.
  induction picks as [|k picks IH]; intros w Hw; simpl; [lia|].
  rewrite IH by by apply step_inv.
  rewrite (step_pending _ _ _ _ _ _ _ _ Hw). lia.
Qed.

Lemma start_tasks_length user threads : ∀ slot,
  length (start_tasks user slot threads) ≤ length threads.
Proof.
  induction threads as [|t threads IH]; intros slot; simpl; [lia|].
  destruct (email_doc user t); simpl; specialize (IH (S slot)); lia.
Qed.

Lemma authenticated_token env req user :
  authenticated env req = Some user →
  ∃ token, truthy (authorization req) = Some token ∧ findUser env token = Some user.
Proof.
  unfold authenticated. destruct (truthy (authorization req)) as [token|]; [|done].
  simpl. intros H. by exists token.
Qed.

(** The handler of [/nylas/read-emails] up to its [await Promise.all]. *)
Lemma app_read_emails env req token user ts emails replies :
  truthy (authorization req) = Some token →
  findUser env token = Some user →
  mailbox env (accessToken user) = Fulfilled ts →
  app env ReadEmails req (init_world emails replies) =
  react (mkWorld emails replies (mkResponse 200 None)
           (ingest_prefix token user (take 5 ts))
           (start_tasks user 0 (take 5 ts))
           (start_settled user 0 (take 5 ts))
           (Some (mkJoin (length (take 5 ts)) (take 5 ts))) None).
Proof.
  intros Htok Huser Hbox. unfold app, isAuthenticated. rewrite Htok.
  unfold bind at 1. simpl. rewrite Huser. simpl.
  unfold read_emails, threads_list. rewrite Hbox.
  change (thread_view true) with (@id Thread). rewrite list_fmap_id.
  unfold bind, emit, await, ret, start_all, await_all. simpl.
  rewrite spawn_all_createEmail. reflexivity.
Qed.

Lemma ingest_inv_start env req token user ts emails replies :
  truthy (authorization req) = Some token →
  findUser env token = Some user →
  mailbox env (accessToken user) = Fulfilled ts →
  ingest_inv env token user (take 5 ts) emails replies
    (app env ReadEmails req (init_world emails replies)).
Proof.
  intros Htok Huser Hbox.
  rewrite (app_read_emails _ _ _ _ _ _ _ Htok Huser Hbox).
  apply react_inv; [|done].
  constructor; simpl.
  - apply start_settled_fulfilled.
  - done.
  - apply start_slots.
  - intros i doc Hi. by left.
  - done.
  - exists []. by rewrite app_nil_r.
  - apply grows_refl.
  - done.
Qed.

(** The invariant holds of an ingestion under every schedule. *)
Lemma ingest_inv_serve env req token user ts picks emails replies :
  truthy (authorization req) = Some token →
  findUser env token = Some user →
  mailbox env (accessToken user) = Fulfilled ts →
  ingest_inv env token user (take 5 ts) emails replies
    (serve env ReadEmails req picks emails replies).
Proof.
  intros Htok Huser Hbox. unfold serve.
  apply event_loop_inv; [intros k w; apply step_inv|].
  by apply ingest_inv_start.
Qed.

(** Five turns are enough for all inserts of a batch to settle. *)
Lemma ingest_serve_settles env req token user ts picks emails replies :
  truthy (authorization req) = Some token →
  findUser env token = Some user →
  mailbox env (accessToken user) = Fulfilled ts →
  length (take 5 ts) ≤ length picks →
  pending (serve env ReadEmails req picks emails replies) = [].
Proof.
  intros Htok Huser Hbox Hlen. unfold serve.
  apply length_zero_iff_nil.
  rewrite (event_loop_pending env token user (take 5 ts) emails replies)
    by by apply ingest_inv_start.
  rewrite (app_read_emails _ _ _ _ _ _ _ Htok Huser Hbox), pending_react. simpl.
  pose proof (start_tasks_length user (take 5 ts) 0). lia.
Qed.

(** ** What code leaves alone *)

Section Respects.
Variable R : relation World.
Hypothesis R_refl : ∀ w, R w w.
Hypothesis R_trans : ∀ w1 w2 w3, R w1 w2 → R w2 w3 → R w1 w3.
Hypothesis R_trace : ∀ v w, R w (set_trace v w).
Hypothesis R_pending : ∀ v w, R w (set_pending v w).
Hypothesis R_settled : ∀ v w, R w (set_settled v w).
Hypothesis R_email :
  ∀ doc w, existsb (same_key doc) (emails_db w) = false →
           R w (set_emails_db (emails_db w ++ [doc]) w).
Hypothesis R_reply : ∀ doc w, R w (set_replies_db (replies_db w ++ [doc]) w).

Lemma respects_ret {A} (a : A) : respects R (ret a).
Proof. intros w. apply R_refl. Qed.

Lemma respects_throw {A} (e : JsError) : respects R (@throw A e).
Proof. intros w. apply R_refl. Qed.

Lemma respects_bind {A B} (m : M A) (k : A → M B) :
  respects R m → (∀ a, respects R (k a)) → respects R (bind m k).
Proof.
  intros Hm Hk w. unfold bind. specialize (Hm w).
  destruct (m w) as [[a|e|] w']; simpl in *; [|done|done].
  eapply R_trans; [exact Hm|apply Hk].
Qed.

Lemma respects_try_catch {A} (m : M A) (h : JsError → M A) :
  respects R m → (∀ e, respects R (h e)) → respects R (try_catch m h).
Proof.
  intros Hm Hh w. unfold try_catch. specialize (Hm w).
  destruct (m w) as [[a|e|] w']; simpl in *; [done| |done].
  eapply R_trans; [exact Hm|apply Hh].
Qed.

Lemma respects_await {A} (p : Settled A) : respects R (await p).
Proof. destruct p; [apply respects_ret|apply respects_throw]. Qed.

Lemma respects_eval {A} (v : JsError + A) : respects R (eval v).
Proof. destruct v; [apply respects_throw|apply respects_ret]. Qed.

Lemma respects_suspend {A} (t : Task) : respects R (@suspend A t).
Proof. intros w. apply R_pending. Qed.

Lemma respects_emit ev : respects R (emit ev).
Proof. intros w. apply R_trace. Qed.

Lemma respects_emails_insert env slot doc : respects R (emails_insert env slot doc).
Proof.
  intros w. unfold emails_insert.
  destruct (emails_create_fault env slot); [apply R_refl|].
  destruct (existsb (same_key doc) (emails_db w)) eqn:Hex; [apply R_refl|].
  by apply R_email.
Qed.

Lemma respects_reply_insert env slot doc : respects R (reply_insert env slot doc).
Proof.
  intros w. unfold reply_insert.
  destruct (String.eqb _ _); [apply R_refl|].
  destruct (reply_create_fault env slot); [apply R_refl|apply R_reply].
Qed.

Lemma respects_emails_find env own : respects R (emails_find env own).
Proof.
  unfold emails_find. apply respects_bind; [apply respects_emit|]. intros _ w.
  destruct (emails_find_fault env); apply R_refl.
Qed.

Lemma respects_reply_find env owner : respects R (reply_find env owner).
Proof.
  unfold reply_find. apply respects_bind; [apply respects_emit|]. intros _ w.
  destruct (reply_find_fault env); apply R_refl.
Qed.

Lemma respects_createEmail_catch e : respects R (createEmail_catch e).
Proof.
  unfold createEmail_catch, console_log, console_error.
  destruct (_ && _); apply respects_emit.
Qed.

Lemma respects_first_choice_text r : respects R (first_choice_text r).
Proof.
  unfold first_choice_text.
  destruct (choices r); [apply respects_throw|apply respects_ret].
Qed.

Lemma respects_spawn slot (m : M unit) :
  respects R m → respects_world R (spawn slot m).
Proof.
  intros Hm w. unfold spawn. specialize (Hm w).
  destruct (m w) as [[[]|e|] w']; simpl in *; [| |done];
    (eapply R_trans; [exact Hm|apply R_settled]).
Qed.

Lemma respects_spawn_all {A} (f : nat → A → M unit) l :
  (∀ slot x, respects R (f slot x)) →
  ∀ slot, respects_world R (spawn_all f slot l).
Proof.
  intros Hf. induction l as [|x l IH]; intros slot w; simpl; [apply R_refl|].
  eapply R_trans; [apply respects_spawn, Hf|apply IH].
Qed.

Lemma respects_start_all {A} (f : nat → A → M unit) l :
  (∀ slot x, respects R (f slot x)) → respects R (start_all f l).
Proof. intros Hf w. unfold start_all. simpl. by apply respects_spawn_all. Qed.

Hint Resolve respects_ret respects_throw respects_await respects_eval
  respects_suspend respects_emit respects_emails_insert respects_reply_insert
  respects_emails_find respects_reply_find respects_createEmail_catch
  respects_first_choice_text : respects.

Ltac respects_auto :=
  repeat first
    [ solve [eauto with respects]
    | progress intros
    | apply respects_bind | apply respects_try_catch | apply respects_start_all ].

Lemma respects_createEmail_start user slot t :
  respects R (createEmail_start user slot t).
Proof. unfold createEmail_start. respects_auto. Qed.

Lemma respects_generateReply_start user slot e :
  respects R (generateReply_start user slot e).
Proof. unfold generateReply_start. respects_auto. Qed.

(** A callback that runs on touches nothing but the trace, the parked
    callbacks and the two collections. *)
Lemma respects_resume env t : respects R (resume env t).
Proof.
  destruct t; simpl;
    unfold createEmail_resume, generateReply_resume, console_log; respects_auto.
Qed.

Hint Resolve respects_createEmail_start respects_generateReply_start : respects.

(** The handlers and the loop write the response object and their own
    state besides. *)
Section Handlers.
Hypothesis R_res : ∀ v w, R w (set_res v w).
Hypothesis R_join : ∀ v w, R w (set_join v w).
Hypothesis R_handler_result : ∀ v w, R w (set_handler_result v w).

Lemma respects_res_status code : respects R (res_status code).
Proof. intros w. apply R_res. Qed.

Lemma respects_res_send b : respects R (res_send b).
Proof.
  intros w. unfold res_send. destruct (sent (res w)); [apply R_refl|apply R_res].
Qed.

Lemma respects_await_all n threads : respects R (await_all n threads).
Proof. intros w. apply R_join. Qed.

Lemma respects_identifier scope x : respects R (identifier scope x).
Proof.
  unfold identifier.
  destruct (lookup_binding x scope); [apply respects_ret|apply respects_throw].
Qed.

Hint Resolve respects_res_status respects_res_send respects_await_all
  respects_identifier : respects.

Lemma respects_handler env r req user : respects R (handler env r req user).
Proof.
  destruct r; simpl;
    unfold read_emails, get_message, get_file, read_email_gpt, read_replies,
      console_error;
    respects_auto.
Qed.

Lemma respects_isAuthenticated env req next :
  (∀ user, respects R (next user)) → respects R (isAuthenticated env req next).
Proof.
  intros Hn. unfold isAuthenticated.
  destruct (truthy (authorization req)); respects_auto.
  destruct (findUser env _); respects_auto.
Qed.

Lemma respects_read_emails_resume j r : respects R (read_emails_resume j r).
Proof. unfold read_emails_resume, console_error. respects_auto. Qed.

Lemma respects_finish (m : M JsReturn) :
  respects R m → respects_world R (fun w => finish (m w)).
Proof.
  intros Hm w. specialize (Hm w).
  destruct (m w) as [[v|e|] w']; simpl in *; [| |done];
    (eapply R_trans; [exact Hm|apply R_handler_result]).
Qed.

Lemma respects_react : respects_world R react.
Proof.
  intros w. unfold react. destruct (join w) as [j|]; [|apply R_refl].
  destruct (promise_all _ _) as [r|]; [|apply R_refl].
  eapply R_trans; [apply (R_join None)|].
  apply (respects_finish _ (respects_read_emails_resume j r)).
Qed.

Lemma respects_app env r req : respects_world R (app env r req).
Proof.
  intros w. unfold app. eapply R_trans; [|apply respects_react].
  apply (respects_finish (isAuthenticated env req (handler env r req))).
  apply respects_isAuthenticated. intros user. apply respects_handler.
Qed.

Lemma respects_step env k : respects_world R (step env k).
Proof.
  intros w. unfold step.
  destruct (pending w !! _) as [t|]; [|apply R_refl].
  eapply R_trans; [apply R_pending|].
  eapply R_trans; [|apply respects_react].
  apply (respects_spawn _ _ (respects_resume env t)).
Qed.

Lemma respects_event_loop env picks : respects_world R (event_loop env picks).
Proof.
  unfold event_loop. induction picks as [|k picks IH]; intros w; simpl.
  - apply R_refl.
  - eapply R_trans; [apply respects_step|apply IH].
Qed.

Lemma respects_serve env r req picks emails replies :
  R (init_world emails replies) (serve env r req picks emails replies).
Proof.
  unfold serve. eapply R_trans; [apply respects_app|apply respects_event_loop].
Qed.
End Handlers.
End Respects.

(** Only [emails.create] writes the [Email] collection, and the unique
    index guards it: whatever the route, the request, the outside and the
    schedule, and from whatever world. *)
Lemma app_grows env r req w : grows (emails_db w) (emails_db (app env r req w)).
Proof.
  apply (respects_app index_grows); unfold index_grows; intros; simpl;
    eauto using grows_refl, grows_trans, grows_insert.
Qed.

Lemma step_grows env k w : grows (emails_db w) (emails_db (step env k w)).
Proof.
  apply (respects_step index_grows); unfold index_grows; intros; simpl;
    eauto using grows_refl, grows_trans, grows_insert.
Qed.

Lemma serve_grows env r req picks emails replies :
  grows emails (emails_db (serve env r req picks emails replies)).
Proof.
  apply (respects_serve index_grows); unfold index_grows; intros; simpl;
    eauto using grows_refl, grows_trans, grows_insert.
Qed.

(** The insert of a document whose key is archived writes nothing. *)
Lemma createEmail_resume_archived env slot doc w :
  archived doc (emails_db w) →
  emails_db (createEmail_resume env slot doc w).2 = emails_db w.
Proof.
  intros Ha. rewrite createEmail_resume_spec. simpl. unfold after_insert.
  apply existsb_same_key in Ha. rewrite Ha.
  by destruct (emails_create_fault env slot).
Qed.

Lemma emails_db_react w : emails_db (react w) = emails_db w.
Proof.
  unfold react. destruct (join w) as [j|]; [|done].
  destruct (promise_all _ _) as [[[]|e]|]; [| |done];
    unfold read_emails_resume, try_catch, bind, res_send; simpl;
    by destruct (sent (res w)).
Qed.

(** An ingestion all of whose documents are archived already writes
    nothing. *)
Lemma ingest_noop env req token user ts picks emails replies :
  truthy (authorization req) = Some token →
  findUser env token = Some user →
  mailbox env (accessToken user) = Fulfilled ts →
  (∀ i doc, AwaitEmailsCreate i doc ∈ start_tasks user 0 (take 5 ts) →
            archived doc emails) →
  emails_db (serve env ReadEmails req picks emails replies) = emails.
Proof.
  intros Htok Huser Hbox Harch. unfold serve.
  apply (event_loop_inv env
    (fun w => ingest_inv env token user (take 5 ts) emails replies w
              ∧ emails_db w = emails)).
  - intros k w [Hinv Hdb]. split; [by apply step_inv|].
    destruct Hinv as (Hc & _ & _). unfold step.
    destruct (pending w !! _) as [t|] eqn:Hlook; [|done].
    pose proof (list_elem_of_lookup_2 _ _ _ Hlook) as Hin.
    pose proof (inv_tasks _ _ _ _ _ _ _ Hc _ Hin) as Hst.
    destruct (start_tasks_inv user _ 0 t Hst) as (n & th & doc & -> & _ & _).
    apply Harch, existsb_same_key in Hst.
    rewrite emails_db_react. simpl. unfold spawn.
    rewrite createEmail_resume_spec. unfold settle, after_insert. simpl.
    rewrite Hdb, Hst.
    by destruct (emails_create_fault env n).
  - split; [by apply ingest_inv_start|].
    rewrite (app_read_emails _ _ _ _ _ _ _ Htok Huser Hbox).
    by rewrite emails_db_react.
Qed.

(** ** What an ingestion writes to the trace *)

Lemma insert_log_cases e :
  insert_log e = ConsoleLog ["Email with the same subject and snippet already exists"%string]
  ∨ insert_log e = ConsoleError "Unexpected error:" (Some e).
Proof. unfold insert_log. destruct (_ && _); auto. Qed.

Lemma ingest_trace_events env token user threads emails replies w ev :
  ingest_inv env token user threads emails replies w →
  ev ∈ trace w →
  ev = MockDbFindUser token
  ∨ ev = NylasThreadsList (accessToken user) 5 true
  ∨ (∃ doc, ev = EmailsCreate doc)
  ∨ (∃ e, ev = insert_log e).
Proof.
  intros (Hc & _ & _) Hev.
  destruct (inv_trace _ _ _ _ _ _ _ Hc) as (logs & Htr & Hlogs).
  rewrite Htr in Hev. unfold ingest_prefix in Hev.
  apply elem_of_app in Hev as [Hev|Hev].
  - apply elem_of_cons in Hev as [->|Hev]; [by left|].
    apply elem_of_cons in Hev as [->|Hev]; [by right; left|].
    apply list_elem_of_fmap in Hev as (t & -> & _). unfold start_event.
    destruct (email_doc user t) as [e|doc]; right; right; eauto.
  - rewrite Forall_forall in Hlogs. right; right; right. by apply Hlogs.
Qed.

Lemma ingest_trace_start env token user threads emails replies w i t :
  ingest_inv env token user threads emails replies w →
  threads !! i = Some t →
  start_event user t ∈ trace w.
Proof.
  intros (Hc & _ & _) Hi.
  destruct (inv_trace _ _ _ _ _ _ _ Hc) as (logs & -> & _).
  unfold ingest_prefix. apply elem_of_app. left.
  do 2 (apply elem_of_cons; right).
  apply list_elem_of_fmap_2. by eapply list_elem_of_lookup_2.
Qed.

(** Once nothing is pending, every thread's callback has ended normally;
    a derived document was sent to the store and, unless its own insert
    met a fault, its key is archived. *)
Lemma ingest_thread_done env token user threads emails replies w i t :
  ingest_inv env token user threads emails replies w →
  pending w = [] →
  threads !! i = Some t →
  (i, Fulfilled tt) ∈ settled w
  ∧ match email_doc user t with
    | inr doc =>
        EmailsCreate doc ∈ trace w
        ∧ (emails_create_fault env i = None → archived doc (emails_db w))
    | inl e => insert_log e ∈ trace w
    end.
Proof.
  intros Hinv Hpend Hi.
  pose proof (ingest_trace_start _ _ _ _ _ _ _ _ _ Hinv Hi) as Hev.
  destruct Hinv as (Hc & _ & _). unfold start_event in Hev.
  destruct (email_doc user t) as [e|doc] eqn:Hdoc.
  - split; [|done]. apply (inv_malformed _ _ _ _ _ _ _ Hc).
    apply (start_settled_lookup user threads 0 i t e Hi Hdoc).
  - pose proof (start_tasks_lookup user threads 0 i t doc Hi Hdoc) as Ht.
    destruct (inv_attempts _ _ _ _ _ _ _ Hc _ _ Ht) as [Hp|[Hs Ha]].
    + rewrite Hpend in Hp. by apply elem_of_nil in Hp.
    + done.
Qed.

Lemma take_5_length {A} (ts : list A) (picks : list nat) :
  5 ≤ length picks → length (take 5 ts) ≤ length picks.
Proof. rewrite length_take. lia. Qed.


Lemma not_external_start_event user t : external_call (start_event user t) = false.
Proof.
  unfold start_event. destruct (email_doc user t) as [e|doc]; [|done].
  by destruct (insert_log_cases e) as [-> | ->].
Qed.

Lemma filter_external_nil (l : list Event) :
  Forall (fun ev => external_call ev = false) l →
  filter (fun ev => external_call ev = true) l = [].
Proof.
  induction 1 as [|ev l Hev _ IH]; [done|].
  rewrite filter_cons. destruct (decide _) as [Ht|]; [congruence|done].
Qed.

(** An ingestion calls the outside once: the thread listing. *)
Lemma ingest_external_calls env token user threads emails replies w :
  ingest_inv env token user threads emails replies w →
  filter (fun ev => external_call ev = true) (trace w)
  = [NylasThreadsList (accessToken user) 5 true].
Proof.
  intros (Hc & _ & _).
  destruct (inv_trace _ _ _ _ _ _ _ Hc) as (logs & -> & Hlogs).
  unfold ingest_prefix. rewrite !filter_app. simpl.
  rewrite !filter_external_nil; [done| |].
  - eapply Forall_impl; [exact Hlogs|]. intros ev [e ->].
    by destruct (insert_log_cases e) as [-> | ->].
  - apply Forall_fmap, Forall_forall. intros t _. apply not_external_start_event.
Qed.

Lemma ingest_response env token user threads emails replies w :
  ingest_inv env token user threads emails replies w →
  (pending w ≠ [] → res w = mkResponse 200 None)
  ∧ (pending w = [] → res w = mkResponse 201 (Some (JsonThreads threads))).
Proof.
  intros (_ & Hwait & Hdone). split.
  - intros Hne. by destruct (Hwait Hne) as (_ & -> & _).
  - intros Hnil. by destruct (Hdone Hnil) as (_ & -> & _).
Qed.

(** The [catch] branch of the handler: what a rejected [Promise.all]
    would lead to. *)
Lemma react_rejected w j e :
  join w = Some j →
  promise_all (join_size j) (settled w) = Some (Rejected e) →
  sent (res w) = None →
  res (react w) = mkResponse 500 (Some (JsonMessageObject "Internal server error")).
Proof.
  intros Hj Hall Hsent. unfold react. rewrite Hj, Hall.
  unfold read_emails_resume, try_catch, bind, res_send, res_status. simpl.
  by rewrite Hsent.
Qed.

(** ** The claims about ingestion *)

(** C8. For every authenticated ingestion request in which the thread
    fetch succeeds, the handler asks the gateway once, for 5 threads in the
    expanded view, and gets the first five of the mailbox (most recently
    updated first) with their messages; it sends nothing while an insert
    is pending and, once all have settled, has sent status 201 with all
    fetched threads; five turns of the loop are enough for that.  Were the
    aggregate wait to reject, the parked handler would send status 500 with
    [{ message: 'Internal server error' }]. *)
Theorem read_emails_contract env req user ts picks emails replies :
  authenticated env req = Some user →
  mailbox env (accessToken user) = Fulfilled ts →
  let w := serve env ReadEmails req picks emails replies in
  threads_list env (accessToken user) 5 true = Fulfilled (take 5 ts)
  ∧ filter (fun ev => external_call ev = true) (trace w)
    = [NylasThreadsList (accessToken user) 5 true]
  ∧ (pending w ≠ [] → sent (res w) = None)
  ∧ (pending w = [] → res w = mkResponse 201 (Some (JsonThreads (take 5 ts))))
  ∧ (5 ≤ length picks → pending w = [])
  ∧ (∀ w' j e,
       join w' = Some j →
       promise_all (join_size j) (settled w') = Some (Rejected e) →
       sent (res w') = None →
       res (react w')
       = mkResponse 500 (Some (JsonMessageObject "Internal server error"))).
Proof.
  intros Hauth Hbox w.
  destruct (authenticated_token _ _ _ Hauth) as (token & Htok & Huser).
  pose proof (ingest_inv_serve env req token user ts picks emails replies
                Htok Huser Hbox) as Hinv.
  fold w in Hinv.
  destruct (ingest_response _ _ _ _ _ _ _ Hinv) as [Hwait Hdone].
  repeat split.
  - unfold threads_list. rewrite Hbox.
    change (thread_view true) with (@id Thread). by rewrite list_fmap_id.
  - by eapply ingest_external_calls.
  - intros Hne. by rewrite (Hwait Hne).
  - done.
  - intros Hlen. eapply ingest_serve_settles; eauto using take_5_length.
  - intros w' j e. apply react_rejected.
Qed.

Lemma read_emails_contract_witness :
  res (serve (scenario_env [thread_1; thread_2] no_fault no_fault None)
         ReadEmails request_tok1 [1; 0; 0; 0; 0] [] [])
  = mkResponse 201 (Some (JsonThreads [thread_1; thread_2]))
  ∧ res (react world_with_rejection)
    = mkResponse 500 (Some (JsonMessageObject "Internal server error")).
Proof.
  destruct (read_emails_contract
              (scenario_env [thread_1; thread_2] no_fault no_fault None)
              request_tok1 account_A [thread_1; thread_2] [1; 0; 0; 0; 0] [] []
              eq_refl eq_refl)
    as (_ & _ & _ & Hdone & Hsettle & Hfail).
  split.
  - apply Hdone, Hsettle. simpl. lia.
  - by apply (Hfail world_with_rejection (mkJoin 1 [thread_1]) storage_down).
Defined.

(** C9. In an ingestion whose thread fetch succeeds, the per-thread
    callback never ends with a throw, neither up to its [await] nor after
    it, whatever the store answers; so every promise of the batch that has
    settled is fulfilled, [Promise.all] over the batch is never rejected,
    the handler never sets status 500 nor logs from its [catch] branch, and
    after five turns of the loop it has answered 201. *)
Theorem promise_all_never_rejects env req user ts picks emails replies :
  authenticated env req = Some user →
  mailbox env (accessToken user) = Fulfilled ts →
  let w := serve env ReadEmails req picks emails replies in
  (∀ slot doc w0, (createEmail_resume env slot doc w0).1 = Normal tt)
  ∧ (∀ slot t w0 e, (createEmail_start user slot t w0).1 ≠ Throw e)
  ∧ Forall (fun p => p.2 = Fulfilled tt) (settled w)
  ∧ (∀ e, promise_all (length (take 5 ts)) (settled w) ≠ Some (Rejected e))
  ∧ statusCode (res w) ≠ 500
  ∧ (∀ e, ConsoleError "Error in Promise.all:" e ∉ trace w)
  ∧ (5 ≤ length picks → res w = mkResponse 201 (Some (JsonThreads (take 5 ts)))).
Proof.
  intros Hauth Hbox w.
  destruct (authenticated_token _ _ _ Hauth) as (token & Htok & Huser).
  pose proof (ingest_inv_serve env req token user ts picks emails replies
                Htok Huser Hbox) as Hinv.
  fold w in Hinv.
  destruct (ingest_response _ _ _ _ _ _ _ Hinv) as [Hwait Hdone].
  pose proof Hinv as (Hc & _ & _).
  repeat split.
  - intros slot doc w0. by rewrite createEmail_resume_spec.
  - intros slot t w0 e. unfold createEmail_start, try_catch, bind, eval.
    destruct (email_doc user t) as [e'|doc]; simpl; [|done].
    by rewrite createEmail_catch_spec.
  - apply (inv_settled _ _ _ _ _ _ _ Hc).
  - intros e. rewrite promise_all_fulfilled by apply (inv_settled _ _ _ _ _ _ _ Hc).
    by destruct (forallb _ _).
  - destruct (pending w) as [|t l] eqn:Hp.
    + by rewrite Hdone.
    + by rewrite Hwait.
  - intros e Hev.
    destruct (ingest_trace_events _ _ _ _ _ _ _ _ Hinv Hev)
      as [?|[?|[[doc ?]|[e' He']]]]; try discriminate.
    destruct (insert_log_cases e') as [Hl|Hl]; rewrite Hl in He'; discriminate.
  - intros Hlen. apply Hdone.
    eapply ingest_serve_settles; eauto using take_5_length.
Qed.

Lemma promise_all_never_rejects_witness :
  res (serve (scenario_env [thread_1; thread_1; thread_empty]
                (fun _ => Some storage_down) no_fault None)
         ReadEmails request_tok1 [0; 1; 2; 3; 4] [] [])
  = mkResponse 201 (Some (JsonThreads [thread_1; thread_1; thread_empty])).
Proof.
  apply (promise_all_never_rejects
           (scenario_env [thread_1; thread_1; thread_empty]
              (fun _ => Some storage_down) no_fault None)
           request_tok1 account_A [thread_1; thread_1; thread_empty]
           [0; 1; 2; 3; 4] [] [] eq_refl eq_refl).
  simpl. lia.
Defined.





(** C1. Whatever the route, the request, the outside and the schedule,
    and from whatever world, neither the synchronous part of a request nor
    a turn of the loop ever leaves two documents with the same (userId,
    subject, snippet) in the [Email] collection, so serving a request keeps
    it free of them.  An insert whose key is archived writes nothing.  When
    the ingestion is run a second time on the same fetched threads, every
    document of the first run is still there, no document is added whose
    key the first run had archived, and if the first run met no storage
    fault and ran to its end the second one leaves the collection as it
    found it. *)
Theorem ingestion_keeps_unique_index
    env env' r req user ts picks picks' emails replies :
  (∀ w k,
     unique_index (emails_db w) →
     unique_index (emails_db (app env r req w))
     ∧ unique_index (emails_db (step env k w)))
  ∧ (unique_index emails →
     unique_index (emails_db (serve env r req picks emails replies)))
  ∧ (∀ slot doc w,
       archived doc (emails_db w) →
       emails_db (createEmail_resume env slot doc w).2 = emails_db w)
  ∧ (authenticated env req = Some user →
     authenticated env' req = Some user →
     mailbox env (accessToken user) = Fulfilled ts →
     mailbox env' (accessToken user) = Fulfilled ts →
     let w1 := serve env ReadEmails req picks emails replies in
     let w2 := serve env' ReadEmails req picks' (emails_db w1) (replies_db w1) in
     (unique_index emails → unique_index (emails_db w2))
     ∧ emails_db w1 `prefix_of` emails_db w2
     ∧ (∀ d, d ∈ emails_db w2 → archived d (emails_db w1) → d ∈ emails_db w1)
     ∧ ((∀ i, emails_create_fault env i = None) →
        5 ≤ length picks →
        emails_db w2 = emails_db w1)).
Proof.
  split; [|split; [|split]].
  { intros w k Hu. split; (eapply grows_unique; [exact Hu|]);
      [apply app_grows|apply step_grows]. }
  { intros Hu. eapply grows_unique; [exact Hu|apply serve_grows]. }
  { intros slot doc w. apply createEmail_resume_archived. }
  intros Hauth Hauth' Hbox Hbox' w1 w2.
  pose proof (serve_grows env ReadEmails req picks emails replies) as Hg1.
  pose proof (serve_grows env' ReadEmails req picks' (emails_db w1) (replies_db w1))
    as Hg2.
  fold w1 in Hg1. fold w2 in Hg2.
  split; [|split; [|split]].
  - intros Hu. eapply grows_unique; [|exact Hg2]. by eapply grows_unique.
  - by apply grows_prefix.
  - intros d. by apply grows_new_key.
  - intros Hnofault Hlen.
    destruct (authenticated_token _ _ _ Hauth) as (token & Htok & Huser).
    destruct (authenticated_token _ _ _ Hauth') as (token' & Htok' & Huser').
    pose proof (ingest_inv_serve env req token user ts picks emails replies
                  Htok Huser Hbox) as Hinv.
    assert (pending w1 = []) as Hpend
      by apply (ingest_serve_settles env req token user ts picks emails replies
                  Htok Huser Hbox (take_5_length _ _ Hlen)).
    fold w1 in Hinv. destruct Hinv as (Hc & _ & _).
    apply (ingest_noop env' req token' user ts picks' _ _ Htok' Huser' Hbox').
    intros i doc Ht.
    destruct (inv_attempts _ _ _ _ _ _ _ Hc _ _ Ht) as [Hp|[_ Ha]].
    + rewrite Hpend in Hp. by apply elem_of_nil in Hp.
    + by apply Ha.
Qed.

Lemma ingestion_keeps_unique_index_witness :
  let env := scenario_env [thread_1; thread_2; thread_1] no_fault no_fault None in
  let w1 := serve env ReadEmails request_tok1 [2; 0; 0; 0; 0] [] [] in
  let w2 := serve env ReadEmails request_tok1 [0; 1; 0; 0; 0]
              (emails_db w1) (replies_db w1) in
  unique_index (emails_db w2) ∧ emails_db w2 = emails_db w1.
Proof.
  destruct (ingestion_keeps_unique_index
              (scenario_env [thread_1; thread_2; thread_1] no_fault no_fault None)
              (scenario_env [thread_1; thread_2; thread_1] no_fault no_fault None)
              ReadEmails request_tok1 account_A [thread_1; thread_2; thread_1]
              [2; 0; 0; 0; 0] [0; 1; 0; 0; 0] [] [])
    as (_ & _ & _ & Htwice).
  destruct (Htwice eq_refl eq_refl eq_refl eq_refl) as (Hu & _ & _ & Hsame).
  split.
  - apply Hu. constructor.
  - apply Hsame; [done|simpl; lia].
Defined.

(** ** Requests that park no callback *)

Lemma event_loop_idle env picks w : pending w = [] → event_loop env picks w = w.
Proof.
  intros Hp. unfold event_loop.
  induction picks as [|k picks IH]; simpl; [done|].
  unfold step at 2. by rewrite Hp.
Qed.

(** C2. A request to any of the five routes behind [isAuthenticated]
    whose authorization header is missing, empty or unknown to the user
    store gets status 401 with body ['Unauthorized']; the handler is not
    entered: both archives are as before, nothing is left running, and the
    only call made is the lookup in the user store (no call to the email
    provider or the completion engine, no read or write of an archive). *)
Theorem unauthenticated_request_is_refused env r req picks emails replies :
  authenticated env req = None →
  let w := serve env r req picks emails replies in
  res w = mkResponse 401 (Some (JsonString "Unauthorized"))
  ∧ emails_db w = emails
  ∧ replies_db w = replies
  ∧ pending w = []
  ∧ trace w = match truthy (authorization req) with
              | Some token => [MockDbFindUser token]
              | None => []
              end
  ∧ Forall (fun ev => external_call ev = false ∧ archive_access ev = false) (trace w).
Proof.
  intros Hauth w. unfold authenticated in Hauth.
  assert (w = mkWorld emails replies
                (mkResponse 401 (Some (JsonString "Unauthorized")))
                match truthy (authorization req) with
                | Some token => [MockDbFindUser token]
                | None => []
                end [] [] None (Some (Fulfilled RetResponse))) as ->.
  { unfold w, serve. rewrite event_loop_idle.
    - unfold app, isAuthenticated.
      destruct (truthy (authorization req)) as [token|]; simpl in *; [|done].
      unfold bind at 1. simpl. by rewrite Hauth.
    - unfold app, isAuthenticated.
      destruct (truthy (authorization req)) as [token|]; simpl in *; [|done].
      unfold bind at 1. simpl. by rewrite Hauth. }
  simpl. repeat split.
  destruct (truthy (authorization req)); repeat constructor.
Qed.

Lemma unauthenticated_request_is_refused_witness :
  let w := serve (scenario_env [thread_1] no_fault no_fault None)
             ReadReplies request_anonymous [0; 1] [] [reply_1] in
  res w = mkResponse 401 (Some (JsonString "Unauthorized"))
  ∧ replies_db w = [reply_1]
  ∧ trace w = [].
Proof.
  destruct (unauthenticated_request_is_refused
              (scenario_env [thread_1] no_fault no_fault None)
              ReadReplies request_anonymous [0; 1] [] [reply_1] eq_refl)
    as (Hres & _ & Hrep & _ & Htr & _).
  by repeat split.
Defined.

(** ** Reply listing *)

Lemma app_read_replies env req token user emails replies :
  truthy (authorization req) = Some token →
  findUser env token = Some user →
  app env ReadReplies req (init_world emails replies) =
  mkWorld emails replies (mkResponse 200 None)
    [MockDbFindUser token; ReplyFind (emailAddress user)] [] [] None
    (Some match reply_find_fault env with
          | None =>
              Fulfilled
                (RetReplies (filter (fun d => userEmail d = emailAddress user) replies))
          | Some _ => Rejected (ReferenceError "e is not defined")
          end).
Proof.
  intros Htok Huser. unfold app, isAuthenticated. rewrite Htok.
  unfold bind at 1. simpl. rewrite Huser. simpl.
  unfold read_replies, try_catch, reply_find, bind, emit. simpl.
  by destruct (reply_find_fault env).
Qed.

(** C5 (what the code does). On an authenticated request whose store read
    succeeds, the handler of [/nylas/read-replies] hands the account's
    replies back to Express as its return value and never writes to the
    response: the caller is sent nothing, under every schedule. *)
Theorem read_replies_returns_without_sending env req user picks emails replies :
  authenticated env req = Some user →
  reply_find_fault env = None →
  let w := serve env ReadReplies req picks emails replies in
  handler_result w
  = Some (Fulfilled
            (RetReplies (filter (fun d => userEmail d = emailAddress user) replies)))
  ∧ res w = mkResponse 200 None.
Proof.
  intros Hauth Hfault w.
  destruct (authenticated_token _ _ _ Hauth) as (token & Htok & Huser).
  unfold w, serve. rewrite (app_read_replies _ _ _ _ _ _ Htok Huser).
  rewrite event_loop_idle by done. simpl. by rewrite Hfault.
Qed.

Lemma read_replies_returns_without_sending_witness :
  let w := serve (scenario_env [] no_fault no_fault None)
             ReadReplies request_tok1 [] [] [reply_1; reply_other] in
  handler_result w = Some (Fulfilled (RetReplies [reply_1]))
  ∧ sent (res w) = None.
Proof.
  destruct (read_replies_returns_without_sending
              (scenario_env [] no_fault no_fault None)
              request_tok1 account_A [] [] [reply_1; reply_other] eq_refl eq_refl)
    as [Hret Hres].
  split; [exact Hret|]. by rewrite Hres.
Defined.

(** C6 (what the code does). On an authenticated request whose store read
    fails, the [catch] block of [/nylas/read-replies] evaluates the unbound
    identifier [e]: it throws a [ReferenceError] before [console.error] is
    called, so nothing is logged; the handler's promise is rejected and no
    response is sent. *)
Theorem read_replies_failure_is_not_logged env req user err picks emails replies :
  authenticated env req = Some user →
  reply_find_fault env = Some err →
  let w := serve env ReadReplies req picks emails replies in
  handler_result w = Some (Rejected (ReferenceError "e is not defined"))
  ∧ (∀ msg e, ConsoleError msg e ∉ trace w)
  ∧ (∀ args, ConsoleLog args ∉ trace w)
  ∧ res w = mkResponse 200 None.
Proof.
  intros Hauth Hfault w.
  destruct (authenticated_token _ _ _ Hauth) as (token & Htok & Huser).
  unfold w, serve. rewrite (app_read_replies _ _ _ _ _ _ Htok Huser).
  rewrite event_loop_idle by done. simpl. rewrite Hfault.
  repeat split.
  - intros msg e Hin. repeat (apply elem_of_cons in Hin as [Hin|Hin]; [discriminate|]).
    by apply elem_of_nil in Hin.
  - intros args Hin. repeat (apply elem_of_cons in Hin as [Hin|Hin]; [discriminate|]).
    by apply elem_of_nil in Hin.
Qed.

Lemma read_replies_failure_is_not_logged_witness :
  let w := serve (scenario_env [] no_fault no_fault (Some storage_down))
             ReadReplies request_tok1 [] [] [reply_1] in
  handler_result w = Some (Rejected (ReferenceError "e is not defined"))
  ∧ trace w = [MockDbFindUser "tok1"; ReplyFind "a@x.com"]
  ∧ sent (res w) = None.
Proof.
  destruct (read_replies_failure_is_not_logged
              (scenario_env [] no_fault no_fault (Some storage_down))
              request_tok1 account_A storage_down [] [] [reply_1] eq_refl eq_refl)
    as (Hret & _ & _ & Hres).
  split; [exact Hret|]. split; [reflexivity|]. by rewrite Hres.
Defined.

(** ** Reply generation *)

Lemma handler_untouched_refl w : handler_untouched w w.
Proof. by unfold handler_untouched. Qed.

Lemma handler_untouched_trans w1 w2 w3 :
  handler_untouched w1 w2 → handler_untouched w2 w3 → handler_untouched w1 w3.
Proof.
  unfold handler_untouched. intros (-> & -> & ->) (-> & -> & ->). done.
Qed.

(** A turn of the loop with no handler parked leaves the response and the
    handler's result as they are. *)
Lemma step_handler_untouched env k w :
  join w = None → handler_untouched w (step env k w).
Proof.
  intros Hj. unfold step.
  destruct (pending w !! _) as [t|]; [|apply handler_untouched_refl].
  assert (handler_untouched w
            (spawn (task_slot t) (resume env t)
               (set_pending (delete (k mod length (pending w)) (pending w)) w)))
    as Hu.
  { eapply handler_untouched_trans;
      [|apply (respects_spawn handler_untouched handler_untouched_trans);
        [done|apply (respects_resume handler_untouched handler_untouched_refl
                       handler_untouched_trans); done]].
    done. }
  rewrite react_no_join; [done|].
  destruct Hu as (-> & _). done.
Qed.

Lemma event_loop_handler_untouched env picks : ∀ w,
  join w = None → handler_untouched w (event_loop env picks w).
Proof.
  unfold event_loop. induction picks as [|k picks IH]; intros w Hj; simpl.
  - apply handler_untouched_refl.
  - pose proof (step_handler_untouched env k w Hj) as Hs.
    eapply handler_untouched_trans; [exact Hs|]. apply IH.
    destruct Hs as (-> & _). done.
Qed.

Lemma spawn_all_generateReply user l : ∀ slot w,
  spawn_all (generateReply_start user) slot l w =
  mkWorld (emails_db w) (replies_db w) (res w)
    (trace w
     ++ ((fun e => OpenAiCreateCompletion
                     (completion_request (email_subject e) (email_snippet e))) <$> l))
    (pending w ++ reply_tasks user slot l)
    (settled w) (join w) (handler_result w).
Proof.
  induction l as [|e l IH]; intros slot w; simpl.
  - rewrite !app_nil_r. by destruct w.
  - unfold spawn at 1. unfold generateReply_start, bind, emit, suspend. simpl.
    rewrite IH. simpl. by rewrite <- !app_assoc.
Qed.

(** The handler of [/nylas/read-email-gpt] at the moment it returns. *)
Lemma app_read_email_gpt env req token user emails replies :
  truthy (authorization req) = Some token →
  findUser env token = Some user →
  emails_find_fault env = None →
  app env ReadEmailGpt req (init_world emails replies) =
  mkWorld emails replies (mkResponse 200 None)
    ([MockDbFindUser token; EmailsFind (emailAddress user)]
     ++ ((fun e => OpenAiCreateCompletion
                     (completion_request (email_subject e) (email_snippet e)))
           <$> emails_of user emails))
    (reply_tasks user 0 (emails_of user emails)) [] None
    (Some (Fulfilled RetTrue)).
Proof.
  intros Htok Huser Hfault. unfold app, isAuthenticated. rewrite Htok.
  unfold bind at 1. simpl. rewrite Huser. simpl.
  unfold read_email_gpt, emails_find, bind, emit, start_all. simpl.
  rewrite Hfault. simpl. rewrite spawn_all_generateReply. reflexivity.
Qed.

Lemma not_external_filter_completions (l : list EmailRecord) :
  filter (fun ev => external_call ev = true)
    ((fun e => OpenAiCreateCompletion
                 (completion_request (email_subject e) (email_snippet e))) <$> l)
  = (fun e => OpenAiCreateCompletion
                (completion_request (email_subject e) (email_snippet e))) <$> l.
Proof.
  induction l as [|e l IH]; [done|].
  rewrite fmap_cons, filter_cons, decide_True by done. by rewrite IH.
Qed.

(** C7 (what the code does). On an authenticated request whose archive
    read succeeds, the handler of [/nylas/read-email-gpt] returns [true] to
    Express with one callback per record parked at its completion call:
    every completion request has been issued, none has settled, no reply
    has been stored.  The handler never writes to the response: neither
    when it returns nor at any later turn of the loop is anything sent. *)
Theorem read_email_gpt_returns_without_waiting env req user emails replies :
  authenticated env req = Some user →
  emails_find_fault env = None →
  let w0 := app env ReadEmailGpt req (init_world emails replies) in
  handler_result w0 = Some (Fulfilled RetTrue)
  ∧ pending w0 = reply_tasks user 0 (emails_of user emails)
  ∧ settled w0 = []
  ∧ replies_db w0 = replies
  ∧ filter (fun ev => external_call ev = true) (trace w0)
    = (fun e => OpenAiCreateCompletion
                  (completion_request (email_subject e) (email_snippet e)))
      <$> emails_of user emails
  ∧ (∀ picks,
       res (event_loop env picks w0) = mkResponse 200 None
       ∧ handler_result (event_loop env picks w0) = Some (Fulfilled RetTrue)).
Proof.
  intros Hauth Hfault w0.
  destruct (authenticated_token _ _ _ Hauth) as (token & Htok & Huser).
  pose proof (app_read_email_gpt env req token user emails replies
                Htok Huser Hfault) as Hw0.
  fold w0 in Hw0. rewrite Hw0. simpl.
  do 4 (split; [done|]). split; [apply not_external_filter_completions|].
  intros picks.
  match goal with
  | |- context [event_loop env picks ?w] =>
      destruct (event_loop_handler_untouched env picks w eq_refl) as (_ & Hr & Hh)
  end.
  by rewrite Hr, Hh.
Qed.

Lemma read_email_gpt_returns_without_waiting_witness :
  let env := scenario_env [] no_fault no_fault None in
  let w0 := app env ReadEmailGpt request_tok1 (init_world [email_1] []) in
  handler_result w0 = Some (Fulfilled RetTrue)
  ∧ length (pending w0) = 1
  ∧ replies_db w0 = []
  ∧ sent (res (event_loop env [0; 0] w0)) = None
  ∧ replies_db (event_loop env [0; 0] w0) = [reply_1].
Proof.
  destruct (read_email_gpt_returns_without_waiting
              (scenario_env [] no_fault no_fault None)
              request_tok1 account_A [email_1] [] eq_refl eq_refl)
    as (Hret & Hpend & _ & Hrep & _ & Hlater).
  split; [exact Hret|]. split; [by rewrite Hpend|]. split; [exact Hrep|].
  split; [|reflexivity].
  by destruct (Hlater [0; 0]) as [-> _].
Defined.

Lemma pending_weight_app l1 l2 :
  pending_weight (l1 ++ l2) = pending_weight l1 + pending_weight l2.
Proof. induction l1 as [|t l1 IH]; simpl; [done|]. rewrite IH. lia. Qed.

Lemma pending_weight_delete l : ∀ i t,
  l !! i = Some t → pending_weight l = task_weight t + pending_weight (delete i l).
Proof.
  induction l as [|t0 l IH]; intros i t Hi; [done|].
  destruct i as [|i]; simpl in *.
  - by injection Hi as ->.
  - rewrite (IH i t Hi). lia.
Qed.

Lemma pending_weight_zero l : pending_weight l = 0 → l = [].
Proof. destruct l as [|[] l]; simpl; [done|lia..]. Qed.

Lemma generateReply_resume_good env slot user req text w :
  request_text env slot req = Some text →
  generateReply_resume env slot user req w =
  (Suspend,
   set_pending
     (pending w ++ [AwaitReplyCreate slot (mkReply (Some text) (emailAddress user))])
     (set_trace
        ((trace w ++ [ConsoleLog ["this is response"%string; text]])
         ++ [ReplyCreate (mkReply (Some text) (emailAddress user))]) w)).
Proof.
  unfold request_text, generateReply_resume. intros Ht.
  destruct (createCompletion env slot req) as [r|e]; [|done].
  unfold bind, await, ret, first_choice_text. simpl.
  destruct (choices r) as [|text' rest]; [done|]. simpl in Ht.
  injection Ht as ->. reflexivity.
Qed.

Lemma reply_insert_good env slot doc w :
  userEmail doc ≠ ""%string →
  reply_create_fault env slot = None →
  reply_insert env slot doc w = (Normal tt, set_replies_db (replies_db w ++ [doc]) w).
Proof.
  intros Hne Hf. unfold reply_insert.
  apply String.eqb_neq in Hne. by rewrite Hne, Hf.
Qed.

(** A turn of the loop over callbacks nothing stops: the replies stored
    and those still to come stay the same bag, and one await is gone. *)
Lemma step_reply_inv env target k w :
  reply_inv env target w →
  reply_inv env target (step env k w)
  ∧ pending_weight (pending (step env k w)) = pred (pending_weight (pending w)).
Proof.
  intros [Hgood Hrep Hjoin]. unfold step.
  destruct (pending w !! (k mod length (pending w))) as [t|] eqn:Hlook.
  - set (i := k mod length (pending w)) in *.
    pose proof (delete_Permutation _ _ _ Hlook) as Hperm.
    pose proof (pending_weight_delete _ _ _ Hlook) as Hweight.
    assert (Forall (good_task env) (delete i (pending w))) as Hgood'.
    { rewrite Forall_forall in *. intros t' Ht'.
      by apply Hgood, (list_elem_of_delete_inv _ i). }
    assert (good_task env t) as Ht
      by (rewrite Forall_forall in Hgood; by apply Hgood, (list_elem_of_lookup_2 _ i)).
    assert (omap (task_reply env) (pending w)
            ≡ₚ omap (task_reply env) (t :: delete i (pending w))) as Ho
      by by apply omap_Permutation.
    destruct t as [slot doc|slot user req|slot doc]; simpl in Ht; [done| |].
    + destruct Ht as (Hne & Hf & [text Htext]).
      rewrite react_no_join.
      2:{ simpl. unfold spawn. by rewrite (generateReply_resume_good _ _ _ _ text). }
      simpl. unfold spawn. rewrite (generateReply_resume_good _ _ _ _ text) by done.
      simpl. split.
      * constructor; simpl; [| |done].
        -- apply Forall_app. split; [done|]. by repeat constructor.
        -- simpl in Ho. rewrite Htext in Ho. simpl in Ho.
           rewrite <- Hrep, Ho, omap_app. simpl.
           by rewrite <- Permutation_cons_append.
      * rewrite pending_weight_app, Hweight. simpl. lia.
    + destruct Ht as (Hne & Hf).
      rewrite react_no_join.
      2:{ simpl. unfold spawn. by rewrite reply_insert_good. }
      simpl. unfold spawn. rewrite reply_insert_good by done.
      simpl. split.
      * constructor; simpl; [done| |done].
        simpl in Ho. rewrite <- Hrep, Ho. by rewrite <- app_assoc.
      * rewrite Hweight. simpl. lia.
  - split; [done|].
    destruct (pending w) as [|t l]; [done|].
    apply lookup_ge_None in Hlook.
    pose proof (Nat.mod_upper_bound k (length (t :: l))). simpl in *. lia.
Qed.

Lemma event_loop_reply_inv env target picks : ∀ w,
  reply_inv env target w →
  reply_inv env target (event_loop env picks w)
  ∧ pending_weight (pending (event_loop env picks w))
    = pending_weight (pending w) - length picks.
Proof.
  unfold event_loop. induction picks as [|k picks IH]; intros w Hw; simpl.
  - split; [done|lia].
  - destruct (step_reply_inv env target k w Hw) as [Hs Hweight].
    destruct (IH _ Hs) as [Hinv ->]. split; [done|]. rewrite Hweight. lia.
Qed.

Lemma reply_tasks_weight user l : ∀ slot,
  pending_weight (reply_tasks user slot l) = 2 * length l.
Proof. induction l as [|e l IH]; intros slot; simpl; [done|]. rewrite IH. lia. Qed.

Lemma reply_tasks_good env user l : ∀ slot,
  emailAddress user ≠ ""%string →
  (∀ i e, l !! i = Some e → is_Some (completion_text env (slot + i) e)) →
  (∀ i, i < length l → reply_create_fault env (slot + i) = None) →
  Forall (good_task env) (reply_tasks user slot l)
  ∧ omap (task_reply env) (reply_tasks user slot l) = expected_replies env user slot l.
Proof.
  induction l as [|e l IH]; intros slot Hne Htext Hfault; simpl; [done|].
  destruct (IH (S slot) Hne) as [Hgood Hexp].
  { intros i e' Hi. replace (S slot + i) with (slot + S i) by lia. by apply Htext. }
  { intros i Hi. replace (S slot + i) with (slot + S i) by lia.
    apply Hfault. simpl. lia. }
  pose proof (Htext 0 e eq_refl) as Ht. rewrite Nat.add_0_r in Ht.
  pose proof (Hfault 0 ltac:(simpl; lia)) as Hf. rewrite Nat.add_0_r in Hf.
  split.
  - constructor; [|done]. simpl. done.
  - unfold completion_text in *. destruct Ht as [text Ht].
    rewrite Ht. simpl. f_equal. exact Hexp.
Qed.

(** C4, amended.  Assuming the archive read succeeds, every completion
    call returns a text, every reply insert succeeds and the account's
    email address is not empty: once the loop has had two turns per
    archived record of the account, no callback is left and the [Reply]
    collection holds what it held plus exactly one reply per such record,
    owned by the account's email, its body the text returned for that
    record. *)
Theorem reply_generation_creates_replies env req user picks emails replies :
  authenticated env req = Some user →
  emailAddress user ≠ ""%string →
  emails_find_fault env = None →
  (∀ i e, emails_of user emails !! i = Some e → is_Some (completion_text env i e)) →
  (∀ i, i < length (emails_of user emails) → reply_create_fault env i = None) →
  2 * length (emails_of user emails) ≤ length picks →
  let w := serve env ReadEmailGpt req picks emails replies in
  pending w = []
  ∧ replies_db w ≡ₚ replies ++ expected_replies env user 0 (emails_of user emails)
  ∧ length (replies_db w) = length replies + length (emails_of user emails).
Proof.
  intros Hauth Hne Hfind Htext Hfault Hlen w.
  destruct (authenticated_token _ _ _ Hauth) as (token & Htok & Huser).
  destruct (reply_tasks_good env user (emails_of user emails) 0 Hne Htext Hfault)
    as [Hgood Hexp].
  assert (reply_inv env (replies ++ expected_replies env user 0 (emails_of user emails))
            (app env ReadEmailGpt req (init_world emails replies))) as Hinv.
  { rewrite (app_read_email_gpt _ _ _ _ _ _ Htok Huser Hfind).
    constructor; simpl; [done| |done]. by rewrite Hexp. }
  destruct (event_loop_reply_inv env _ picks _ Hinv) as [[_ Hrep _] Hweight].
  fold (serve env ReadEmailGpt req picks emails replies) in Hrep, Hweight.
  fold w in Hrep, Hweight.
  rewrite (app_read_email_gpt _ _ _ _ _ _ Htok Huser Hfind) in Hweight.
  simpl in Hweight. rewrite reply_tasks_weight in Hweight.
  assert (pending w = []) as Hpend by (apply pending_weight_zero; lia).
  rewrite Hpend in Hrep. simpl in Hrep. rewrite app_nil_r in Hrep.
  split; [done|]. split; [done|].
  rewrite Hrep, length_app. f_equal.
  clear. generalize 0. induction (emails_of user emails) as [|e l IH]; intros n;
    simpl; [done|]. by rewrite IH.
Qed.

Lemma reply_generation_creates_replies_witness :
  replies_db (serve (scenario_env [] no_fault no_fault None)
                ReadEmailGpt request_tok1 [1; 0; 1; 0] [email_1; email_2] [])
  ≡ₚ [reply_1; reply_1].
Proof.
  apply (reply_generation_creates_replies
           (scenario_env [] no_fault no_fault None)
           request_tok1 account_A [1; 0; 1; 0] [email_1; email_2] []).
  - reflexivity.
  - discriminate.
  - reflexivity.
  - intros [|[|i]] e He; [by eexists..|discriminate].
  - reflexivity.
  - simpl. lia.
Defined.

(** C4 fails as worded.  With one archived email of the account and a
    completion engine that answers [Draft reply] to every prompt, the
    [Reply] collection stays empty when the store rejects the reply insert,
    when the archive read fails, and when the account's email address is
    empty (the [required] validator refuses the reply). *)
Lemma reply_generation_needs_the_store :
  ¬ reply_generation_as_claimed
      (scenario_env [] no_fault (fun _ => Some storage_down) None)
      request_tok1 account_A [0; 0] [email_1] []
  ∧ ¬ reply_generation_as_claimed unreadable_env
        request_tok1 account_A [0; 0] [email_1] []
  ∧ ¬ reply_generation_as_claimed blank_env
        (mkRequest (Some "tok2"%string) None) account_blank [0; 0] [email_blank] [].
Proof.
  repeat split; intros Hclaim.
  - assert (replies_db
              (serve (scenario_env [] no_fault (fun _ => Some storage_down) None)
                 ReadEmailGpt request_tok1 [0; 0] [email_1] [])
            ≡ₚ [reply_1]) as Hperm.
    { apply Hclaim.
      - reflexivity.
      - intros [|i] e He; [by eexists|discriminate].
      - simpl. lia. }
    apply Permutation_length in Hperm. discriminate.
  - assert (replies_db
              (serve unreadable_env ReadEmailGpt request_tok1 [0; 0] [email_1] [])
            ≡ₚ [reply_1]) as Hperm.
    { apply Hclaim.
      - reflexivity.
      - intros [|i] e He; [by eexists|discriminate].
      - simpl. lia. }
    apply Permutation_length in Hperm. discriminate.
  - assert (replies_db
              (serve blank_env ReadEmailGpt (mkRequest (Some "tok2"%string) None)
                 [0; 0] [email_blank] [])
            ≡ₚ [mkReply (Some "Draft reply"%string) ""]) as Hperm.
    { apply Hclaim.
      - reflexivity.
      - intros [|i] e He; [by eexists|discriminate].
      - simpl. lia. }
    apply Permutation_length in Hperm. discriminate.
Qed.

(** ** The two pass-through routes *)

(** X1. An authenticated request for a message that the gateway finds is
    answered with that message; the gateway is called once, with the
    account's access token and the [id] of the query, and neither archive
    is read or written. *)
Theorem get_message_passes_through env req user message picks emails replies :
  authenticated env req = Some user →
  messages_find env (accessToken user) (query_id req) = Fulfilled message →
  let w := serve env GetMessage req picks emails replies in
  sent (res w) = Some (JsonMessage message)
  ∧ filter (fun ev => external_call ev = true) (trace w)
    = [NylasMessagesFind (accessToken user) (query_id req)]
  ∧ Forall (fun ev => archive_access ev = false) (trace w)
  ∧ emails_db w = emails
  ∧ replies_db w = replies.
Proof.
  intros Hauth Hfind w.
  destruct (authenticated_token _ _ _ Hauth) as (token & Htok & Huser).
  assert (w = mkWorld emails replies (mkResponse 200 (Some (JsonMessage message)))
                [MockDbFindUser token;
                 NylasMessagesFind (accessToken user) (query_id req)]
                [] [] None (Some (Fulfilled RetResponse))) as ->.
  { unfold w, serve, app, isAuthenticated. rewrite Htok.
    unfold bind at 1. simpl. rewrite Huser. simpl.
    unfold get_message, bind, emit. simpl. rewrite Hfind. simpl.
    by rewrite event_loop_idle. }
  simpl. repeat split. by repeat constructor.
Qed.

Lemma get_message_passes_through_witness :
  sent (res (serve gateway_env GetMessage (mkRequest (Some "tok1"%string) (Some "m1"%string))
               [] [] []))
  = Some (JsonMessage message_1).
Proof.
  apply (get_message_passes_through gateway_env
           (mkRequest (Some "tok1"%string) (Some "m1"%string)) account_A message_1
           [] [] [] eq_refl eq_refl).
Defined.

(** X2. An authenticated request for a file that the gateway finds and
    downloads ends the response with the body of the download, or with
    nothing when the download yields no object; the gateway is called
    twice, to find the file and to download it. *)
Theorem get_file_passes_through env req user file data picks emails replies :
  authenticated env req = Some user →
  files_find env (accessToken user) (query_id req) = Fulfilled file →
  file_download env file = Fulfilled data →
  let w := serve env GetFile req picks emails replies in
  sent (res w) = Some (RawEnd (data ≫= data_body))
  ∧ filter (fun ev => external_call ev = true) (trace w)
    = [NylasFilesFind (accessToken user) (query_id req); NylasFileDownload file]
  ∧ emails_db w = emails
  ∧ replies_db w = replies.
Proof.
  intros Hauth Hfind Hdown w.
  destruct (authenticated_token _ _ _ Hauth) as (token & Htok & Huser).
  assert (w = mkWorld emails replies
                (mkResponse 200 (Some (RawEnd (data ≫= data_body))))
                [MockDbFindUser token;
                 NylasFilesFind (accessToken user) (query_id req);
                 NylasFileDownload file]
                [] [] None (Some (Fulfilled RetResponse))) as ->.
  { unfold w, serve, app, isAuthenticated. rewrite Htok.
    unfold bind at 1. simpl. rewrite Huser. simpl.
    unfold get_file, bind, emit. simpl. rewrite Hfind. simpl.
    rewrite Hdown. simpl. by rewrite event_loop_idle. }
  simpl. by repeat split.
Qed.

Lemma get_file_passes_through_witness :
  sent (res (serve gateway_env GetFile (mkRequest (Some "tok1"%string) (Some "f1"%string))
               [] [] []))
  = Some (RawEnd (Some "file content"%string)).
Proof.
  apply (get_file_passes_through gateway_env
           (mkRequest (Some "tok1"%string) (Some "f1"%string)) account_A
           (mkFile "f1") (Some (mkFileData (Some "file content"%string)))
           [] [] [] eq_refl eq_refl eq_refl).
Defined.

(** ** The end-to-end scenarios *)

(** Scenario A: token [tok1] resolves to account A; the gateway
    returns two threads with different subjects and snippets.  Whichever
    insert the store sees first, the answer is 201 with both threads and
    two documents are archived. *)
Example scenario_A :
  let env := scenario_env [thread_1; thread_2] no_fault no_fault None in
  let w := serve env ReadEmails request_tok1 [0; 0] [] [] in
  let w' := serve env ReadEmails request_tok1 [1; 0] [] [] in
  res w = mkResponse 201 (Some (JsonThreads [thread_1; thread_2]))
  ∧ emails_db w = [email_1; email_2]
  ∧ res w' = mkResponse 201 (Some (JsonThreads [thread_1; thread_2]))
  ∧ emails_db w' = [email_2; email_1].
Proof. vm_compute. by repeat split. Qed.

(** Scenario B: after scenario A, an ingestion that fetches a new
    thread and one repeating the subject and snippet of the first archives
    one more document, the new one, and still answers 201 with all the
    threads it fetched. *)
Example scenario_B :
  let env := scenario_env [thread_3; thread_1_again] no_fault no_fault None in
  let w := serve env ReadEmails request_tok1 [1; 0] [email_1; email_2] [] in
  res w = mkResponse 201 (Some (JsonThreads [thread_3; thread_1_again]))
  ∧ emails_db w = [email_1; email_2; email_3]
  ∧ ConsoleLog ["Email with the same subject and snippet already exists"%string]
    ∈ trace w.
Proof.
  vm_compute. repeat split.
  apply list_elem_of_In. vm_compute. tauto.
Qed.

(** Scenario D: the archive holds one email of the account and the
    completion engine answers [Draft reply]; when the store accepts the
    insert, two turns of the loop after the handler has returned the
    [Reply] collection holds exactly one reply, owned by the account, with
    that body. *)
Example scenario_D :
  let env := scenario_env [] no_fault no_fault None in
  let w := serve env ReadEmailGpt request_tok1 [0; 0] [email_1] [] in
  replies_db w = [mkReply (Some "Draft reply"%string) "a@x.com"]
  ∧ pending w = [].
Proof. vm_compute. by split. Qed.

(** * Further properties *)

(** ** A failing call that a handler awaits directly *)

Lemma authenticated_app env r req token user w :
  truthy (authorization req) = Some token →
  findUser env token = Some user →
  app env r req w =
  react (finish (handler env r req user (set_trace (trace w ++ [MockDbFindUser token]) w))).
Proof.
  intros Htok Huser. unfold app, isAuthenticated. rewrite Htok.
  unfold bind at 1. simpl. by rewrite Huser.
Qed.

(** What the routes that park no callback leave behind. *)
Lemma app_refused env r req emails replies :
  authenticated env req = None →
  app env r req (init_world emails replies) =
  mkWorld emails replies (mkResponse 401 (Some (JsonString "Unauthorized")))
    match truthy (authorization req) with
    | Some token => [MockDbFindUser token]
    | None => []
    end [] [] None (Some (Fulfilled RetResponse)).
Proof.
  unfold authenticated, app, isAuthenticated. intros Hauth.
  destruct (truthy (authorization req)) as [token|]; simpl in *; [|done].
  unfold bind at 1. simpl. by rewrite Hauth.
Qed.

Lemma app_read_emails_rejected env req token user e emails replies :
  truthy (authorization req) = Some token →
  findUser env token = Some user →
  mailbox env (accessToken user) = Rejected e →
  app env ReadEmails req (init_world emails replies) =
  mkWorld emails replies (mkResponse 200 None)
    [MockDbFindUser token; NylasThreadsList (accessToken user) 5 true]
    [] [] None (Some (Rejected e)).
Proof.
  intros Htok Huser Hbox. rewrite (authenticated_app _ _ _ _ _ _ Htok Huser). simpl.
  unfold read_emails, threads_list, bind, emit. simpl. by rewrite Hbox.
Qed.

Lemma app_get_message env req token user emails replies :
  truthy (authorization req) = Some token →
  findUser env token = Some user →
  app env GetMessage req (init_world emails replies) =
  mkWorld emails replies
    (mkResponse 200
       match messages_find env (accessToken user) (query_id req) with
       | Fulfilled message => Some (JsonMessage message)
       | Rejected _ => None
       end)
    [MockDbFindUser token; NylasMessagesFind (accessToken user) (query_id req)]
    [] [] None
    (Some match messages_find env (accessToken user) (query_id req) with
          | Fulfilled _ => Fulfilled RetResponse
          | Rejected e => Rejected e
          end).
Proof.
  intros Htok Huser. rewrite (authenticated_app _ _ _ _ _ _ Htok Huser). simpl.
  unfold get_message, bind, emit. simpl.
  by destruct (messages_find env (accessToken user) (query_id req)).
Qed.

Lemma app_get_file env req token user emails replies :
  truthy (authorization req) = Some token →
  findUser env token = Some user →
  app env GetFile req (init_world emails replies) =
  match files_find env (accessToken user) (query_id req) with
  | Rejected e =>
      mkWorld emails replies (mkResponse 200 None)
        [MockDbFindUser token; NylasFilesFind (accessToken user) (query_id req)]
        [] [] None (Some (Rejected e))
  | Fulfilled file =>
      mkWorld emails replies
        (mkResponse 200
           match file_download env file with
           | Fulfilled data => Some (RawEnd (data ≫= data_body))
           | Rejected _ => None
           end)
        [MockDbFindUser token; NylasFilesFind (accessToken user) (query_id req);
         NylasFileDownload file]
        [] [] None
        (Some match file_download env file with
              | Fulfilled _ => Fulfilled RetResponse
              | Rejected e => Rejected e
              end)
  end.
Proof.
  intros Htok Huser. rewrite (authenticated_app _ _ _ _ _ _ Htok Huser). simpl.
  unfold get_file, bind, emit. simpl.
  destruct (files_find env (accessToken user) (query_id req)) as [file|e]; [|done].
  simpl. by destruct (file_download env file).
Qed.

Lemma app_read_email_gpt_rejected env req token user e emails replies :
  truthy (authorization req) = Some token →
  findUser env token = Some user →
  emails_find_fault env = Some e →
  app env ReadEmailGpt req (init_world emails replies) =
  mkWorld emails replies (mkResponse 200 None)
    [MockDbFindUser token; EmailsFind (emailAddress user)]
    [] [] None (Some (Rejected e)).
Proof.
  intros Htok Huser Hfault. rewrite (authenticated_app _ _ _ _ _ _ Htok Huser). simpl.
  unfold read_email_gpt, emails_find, bind, emit. simpl. by rewrite Hfault.
Qed.

(** X3. When the thread listing fails, the handler of [/nylas/read-emails]
    is rejected at its first [await], outside the [try] block: no response
    is sent (not the 500 either), nothing is logged, [emails.create] is
    never called and both collections are as they were. *)
Theorem read_emails_fetch_failure env req user e picks emails replies :
  authenticated env req = Some user →
  mailbox env (accessToken user) = Rejected e →
  let w := serve env ReadEmails req picks emails replies in
  res w = mkResponse 200 None
  ∧ handler_result w = Some (Rejected e)
  ∧ omap created_doc (trace w) = []
  ∧ (∀ msg err, ConsoleError msg err ∉ trace w)
  ∧ pending w = []
  ∧ emails_db w = emails
  ∧ replies_db w = replies.
Proof.
  intros Hauth Hbox w.
  destruct (authenticated_token _ _ _ Hauth) as (token & Htok & Huser).
  unfold w, serve. rewrite (app_read_emails_rejected _ _ _ _ _ _ _ Htok Huser Hbox).
  rewrite event_loop_idle by done. simpl. repeat split.
  intros msg err Hin.
  repeat (apply elem_of_cons in Hin as [Hin|Hin]; [discriminate|]).
  by apply elem_of_nil in Hin.
Qed.

Lemma read_emails_fetch_failure_witness :
  let w := serve down_env ReadEmails request_tok1 [0; 1; 2] [email_1] [] in
  sent (res w) = None ∧ emails_db w = [email_1].
Proof.
  destruct (read_emails_fetch_failure down_env request_tok1 account_A gateway_down
              [0; 1; 2] [email_1] [] eq_refl eq_refl)
    as (Hres & _ & _ & _ & _ & Hdb & _).
  split; [by rewrite Hres|exact Hdb].
Defined.

(** X4. On the two pass-through routes a failing gateway call rejects the
    handler and no response is sent: for a message that is not found; for
    a file that is not found, in which case no download is attempted; and
    for a file whose download fails. *)
Theorem pass_through_failure env req user e picks emails replies :
  authenticated env req = Some user →
  (messages_find env (accessToken user) (query_id req) = Rejected e →
   let w := serve env GetMessage req picks emails replies in
   res w = mkResponse 200 None ∧ handler_result w = Some (Rejected e))
  ∧ (files_find env (accessToken user) (query_id req) = Rejected e →
     let w := serve env GetFile req picks emails replies in
     res w = mkResponse 200 None
     ∧ handler_result w = Some (Rejected e)
     ∧ ∀ f, NylasFileDownload f ∉ trace w)
  ∧ (∀ file,
       files_find env (accessToken user) (query_id req) = Fulfilled file →
       file_download env file = Rejected e →
       let w := serve env GetFile req picks emails replies in
       res w = mkResponse 200 None ∧ handler_result w = Some (Rejected e)).
Proof.
  intros Hauth.
  destruct (authenticated_token _ _ _ Hauth) as (token & Htok & Huser).
  split; [|split].
  - intros Hfind w. unfold w, serve.
    rewrite (app_get_message _ _ _ _ _ _ Htok Huser), Hfind.
    by rewrite event_loop_idle.
  - intros Hfind w. unfold w, serve.
    rewrite (app_get_file _ _ _ _ _ _ Htok Huser), Hfind.
    rewrite event_loop_idle by done. simpl. repeat split. intros f Hin.
    repeat (apply elem_of_cons in Hin as [Hin|Hin]; [discriminate|]).
    by apply elem_of_nil in Hin.
  - intros file Hfind Hdown w. unfold w, serve.
    rewrite (app_get_file _ _ _ _ _ _ Htok Huser), Hfind, Hdown.
    by rewrite event_loop_idle.
Qed.

Lemma pass_through_failure_witness :
  sent (res (serve down_env GetMessage request_tok1 [] [] [])) = None
  ∧ sent (res (serve down_env GetFile request_tok1 [] [] [])) = None
  ∧ sent (res (serve download_fails_env GetFile request_tok1 [] [] [])) = None.
Proof.
  destruct (pass_through_failure down_env request_tok1 account_A gateway_down
              [] [] [] eq_refl) as (Hm & Hf & _).
  destruct (pass_through_failure download_fails_env request_tok1 account_A
              gateway_down [] [] [] eq_refl) as (_ & _ & Hd).
  destruct (Hm eq_refl) as [-> _]. destruct (Hf eq_refl) as (-> & _).
  destruct (Hd (mkFile "f1") eq_refl eq_refl) as [-> _]. done.
Defined.

(** X5. When the archive read of [/nylas/read-email-gpt] fails, the
    handler is rejected before the loop over the records: no completion is
    requested, no callback is parked, no response is sent and no reply is
    stored. *)
Theorem read_email_gpt_read_failure env req user e picks emails replies :
  authenticated env req = Some user →
  emails_find_fault env = Some e →
  let w := serve env ReadEmailGpt req picks emails replies in
  res w = mkResponse 200 None
  ∧ handler_result w = Some (Rejected e)
  ∧ filter (fun ev => external_call ev = true) (trace w) = []
  ∧ pending w = []
  ∧ emails_db w = emails
  ∧ replies_db w = replies.
Proof.
  intros Hauth Hfault w.
  destruct (authenticated_token _ _ _ Hauth) as (token & Htok & Huser).
  unfold w, serve.
  rewrite (app_read_email_gpt_rejected _ _ _ _ _ _ _ Htok Huser Hfault).
  by rewrite event_loop_idle.
Qed.

Lemma read_email_gpt_read_failure_witness :
  let w := serve unreadable_env ReadEmailGpt request_tok1 [0; 0] [email_1] [] in
  handler_result w = Some (Rejected storage_down) ∧ replies_db w = [].
Proof.
  destruct (read_email_gpt_read_failure unreadable_env request_tok1 account_A
              storage_down [0; 0] [email_1] [] eq_refl eq_refl)
    as (_ & Hret & _ & _ & _ & Hrep).
  by split.
Defined.

(** ** Reply generation when calls fail *)

Lemma generateReply_resume_cases env slot user req w :
  match request_text env slot req with
  | Some text =>
      generateReply_resume env slot user req w =
      (Suspend,
       set_pending
         (pending w ++ [AwaitReplyCreate slot (mkReply (Some text) (emailAddress user))])
         (set_trace
            ((trace w ++ [ConsoleLog ["this is response"%string; text]])
             ++ [ReplyCreate (mkReply (Some text) (emailAddress user))]) w))
  | None => ∃ e, generateReply_resume env slot user req w = (Throw e, w)
  end.
Proof.
  unfold request_text, generateReply_resume.
  destruct (createCompletion env slot req) as [r|e]; simpl; [|by eexists].
  unfold bind, await, ret, first_choice_text. simpl.
  destruct (choices r) as [|text rest]; simpl; [by eexists|done].
Qed.

Lemma reply_insert_cases env slot doc w :
  match insert_outcome env slot doc with
  | Some stored =>
      stored = doc
      ∧ reply_insert env slot doc w
        = (Normal tt, set_replies_db (replies_db w ++ [doc]) w)
  | None => ∃ e, reply_insert env slot doc w = (Throw e, w)
  end.
Proof.
  unfold insert_outcome, reply_insert.
  destruct (String.eqb (userEmail doc) ""); [by eexists|].
  destruct (reply_create_fault env slot); [by eexists|done].
Qed.

(** A turn of the loop during a reply generation: the replies stored and
    those that are still going to be stored stay the same bag, and at
    least one await is gone. *)
Lemma step_reply_run env emails target k w :
  reply_run env emails target w →
  reply_run env emails target (step env k w)
  ∧ pending_weight (pending (step env k w)) ≤ pred (pending_weight (pending w)).
Proof.
  intros [Htasks Hrep Hjoin Hemails]. unfold step.
  destruct (pending w !! (k mod length (pending w))) as [t|] eqn:Hlook.
  - set (i := k mod length (pending w)) in *.
    pose proof (pending_weight_delete _ _ _ Hlook) as Hweight.
    assert (Forall (fun t => is_reply_task t = true) (delete i (pending w))) as Htasks'.
    { rewrite Forall_forall in *. intros t' Ht'.
      by apply Htasks, (list_elem_of_delete_inv _ i). }
    assert (is_reply_task t = true) as Ht
      by (rewrite Forall_forall in Htasks; by apply Htasks, (list_elem_of_lookup_2 _ i)).
    assert (omap (task_outcome env) (pending w)
            ≡ₚ omap (task_outcome env) (t :: delete i (pending w))) as Ho
      by by apply omap_Permutation, delete_Permutation.
    destruct t as [slot doc|slot user req|slot doc]; [done| |]; simpl in Ho |- *.
    + pose proof (generateReply_resume_cases env slot user req
                    (set_pending (delete i (pending w)) w)) as Hres.
      unfold spawn.
      destruct (request_text env slot req) as [text|]; simpl in Ho.
      * rewrite Hres. rewrite react_no_join by done. simpl. split.
        -- constructor; simpl; [| |done|done].
           ++ apply Forall_app. split; [done|]. by repeat constructor.
           ++ rewrite <- Hrep, Ho, omap_app. simpl.
              destruct (insert_outcome env slot _); simpl.
              ** by rewrite <- Permutation_cons_append.
              ** by rewrite app_nil_r.
        -- rewrite pending_weight_app, Hweight. simpl. lia.
      * destruct Hres as [e ->]. rewrite react_no_join by done. simpl. split.
        -- constructor; simpl; [done| |done|done]. by rewrite <- Hrep, Ho.
        -- rewrite Hweight. simpl. lia.
    + pose proof (reply_insert_cases env slot doc
                    (set_pending (delete i (pending w)) w)) as Hres.
      unfold spawn.
      destruct (insert_outcome env slot doc) as [stored|]; simpl in Ho.
      * destruct Hres as [-> ->]. rewrite react_no_join by done. simpl. split.
        -- constructor; simpl; [done| |done|done].
           rewrite <- Hrep, Ho. by rewrite <- app_assoc.
        -- rewrite Hweight. simpl. lia.
      * destruct Hres as [e ->]. rewrite react_no_join by done. simpl. split.
        -- constructor; simpl; [done| |done|done]. by rewrite <- Hrep, Ho.
        -- rewrite Hweight. simpl. lia.
  - split; [done|].
    destruct (pending w) as [|t l]; [done|].
    apply lookup_ge_None in Hlook.
    pose proof (Nat.mod_upper_bound k (length (t :: l))). simpl in *. lia.
Qed.

Lemma event_loop_reply_run env emails target picks : ∀ w,
  reply_run env emails target w →
  reply_run env emails target (event_loop env picks w)
  ∧ pending_weight (pending (event_loop env picks w))
    ≤ pending_weight (pending w) - length picks.
Proof.
  unfold event_loop. induction picks as [|k picks IH]; intros w Hw; simpl.
  - split; [done|lia].
  - destruct (step_reply_run env emails target k w Hw) as [Hs Hweight].
    destruct (IH _ Hs) as [Hinv Hle]. split; [done|]. lia.
Qed.

Lemma reply_tasks_outcome env user l : ∀ slot,
  Forall (fun t => is_reply_task t = true) (reply_tasks user slot l)
  ∧ omap (task_outcome env) (reply_tasks user slot l) = stored_replies env user slot l.
Proof.
  induction l as [|e l IH]; intros slot; [done|].
  destruct (IH (S slot)) as [Htasks Hout]. split.
  - simpl. by constructor.
  - change (reply_tasks user slot (e :: l))
      with (AwaitCreateCompletion slot user
              (completion_request (email_subject e) (email_snippet e))
            :: reply_tasks user (S slot) l).
    change (stored_replies env user slot (e :: l))
      with (match reply_outcome env user slot e with
            | Some r => r :: stored_replies env user (S slot) l
            | None => stored_replies env user (S slot) l
            end).
    rewrite <- Hout. unfold reply_outcome, completion_text.
    change (omap (task_outcome env) (?t :: ?l))
      with (match task_outcome env t with
            | Some r => r :: omap (task_outcome env) l
            | None => omap (task_outcome env) l
            end).
    simpl. by destruct (request_text env slot _ ≫= _).
Qed.









(** ** What an ingestion stores *)

Lemma email_doc_fields user t d :
  email_doc user t = inr d →
  email_subject d = subject t
  ∧ email_snippet d = snippet t
  ∧ ownEmail d = Some (emailAddress user)
  ∧ userId d = Some (user_id user).
Proof.
  unfold email_doc. destruct (first_sender_email t); [done|].
  by intros [= <-].
Qed.

Lemma created_doc_insert_log e : created_doc (insert_log e) = None.
Proof. by destruct (insert_log_cases e) as [-> | ->]. Qed.

Lemma created_doc_start user (threads : list Thread) :
  omap created_doc (start_event user <$> threads) = omap (derived_doc user) threads.
Proof.
  induction threads as [|t threads IH]; [done|].
  rewrite fmap_cons.
  change (omap created_doc (?x :: ?l))
    with (match created_doc x with
          | Some d => d :: omap created_doc l
          | None => omap created_doc l
          end).
  change (omap (derived_doc user) (t :: threads))
    with (match derived_doc user t with
          | Some d => d :: omap (derived_doc user) threads
          | None => omap (derived_doc user) threads
          end).
  rewrite IH. unfold start_event, derived_doc.
  destruct (email_doc user t) as [e|doc]; [|done].
  by rewrite created_doc_insert_log.
Qed.

Lemma created_doc_logs (logs : list Event) :
  Forall (fun ev => ∃ e, ev = insert_log e) logs → omap created_doc logs = [].
Proof.
  induction 1 as [|ev logs [e ->] _ IH]; [done|].
  change (omap created_doc (?x :: ?l))
    with (match created_doc x with
          | Some d => d :: omap created_doc l
          | None => omap created_doc l
          end).
  by rewrite created_doc_insert_log.
Qed.

Lemma omap_length_le {A B} (f : A → option B) (l : list A) :
  length (omap f l) ≤ length l.
Proof.
  induction l as [|x l IH]; [done|].
  change (omap f (x :: l))
    with (match f x with Some y => y :: omap f l | None => omap f l end).
  destruct (f x); simpl; lia.
Qed.

(** A turn of the loop during an ingestion stores nothing, or the document
    of one parked insert that met no fault. *)
Lemma step_ingest_emails env token user threads emails replies k w :
  ingest_inv env token user threads emails replies w →
  emails_db (step env k w) = emails_db w
  ∨ ∃ n doc,
      AwaitEmailsCreate n doc ∈ start_tasks user 0 threads
      ∧ emails_create_fault env n = None
      ∧ emails_db (step env k w) = emails_db w ++ [doc].
Proof.
  intros (Hc & _ & _). unfold step.
  destruct (pending w !! _) as [t|] eqn:Hlook; [|by left].
  pose proof (list_elem_of_lookup_2 _ _ _ Hlook) as Hin.
  pose proof (inv_tasks _ _ _ _ _ _ _ Hc _ Hin) as Hst.
  destruct (start_tasks_inv user _ 0 t Hst) as (n & th & doc & -> & _ & _).
  rewrite emails_db_react. simpl. unfold spawn.
  rewrite createEmail_resume_spec. unfold settle, after_insert. simpl.
  destruct (emails_create_fault env n) eqn:Hf; [by left|].
  destruct (existsb (same_key doc) (emails_db w)); [by left|].
  right. exists n, doc. split; [exact Hst|]. by split.
Qed.

(** Every document an ingestion has stored is the document of a fetched
    thread whose insert met no fault. *)
Lemma ingest_stored_docs env req token user ts picks emails replies :
  truthy (authorization req) = Some token →
  findUser env token = Some user →
  mailbox env (accessToken user) = Fulfilled ts →
  ∀ d, d ∈ emails_db (serve env ReadEmails req picks emails replies) →
       d ∈ emails
       ∨ ∃ n, AwaitEmailsCreate n d ∈ start_tasks user 0 (take 5 ts)
              ∧ emails_create_fault env n = None.
Proof.
  intros Htok Huser Hbox. unfold serve.
  apply (event_loop_inv env
    (fun w => ingest_inv env token user (take 5 ts) emails replies w
              ∧ ∀ d, d ∈ emails_db w →
                     d ∈ emails
                     ∨ ∃ n, AwaitEmailsCreate n d ∈ start_tasks user 0 (take 5 ts)
                            ∧ emails_create_fault env n = None)).
  - intros k w [Hinv Hdocs]. split; [by apply step_inv|].
    intros d Hd.
    destruct (step_ingest_emails _ _ _ _ _ _ k _ Hinv) as [Heq|(n & doc & Ht & Hf & Heq)];
      rewrite Heq in Hd; [by apply Hdocs|].
    apply elem_of_app in Hd as [Hd|Hd]; [by apply Hdocs|].
    apply list_elem_of_singleton in Hd as ->. right. by exists n.
  - split; [by apply ingest_inv_start|].
    rewrite (app_read_emails _ _ _ _ _ _ _ Htok Huser Hbox), emails_db_react.
    simpl. by left.
Qed.

(** X6. Under every schedule and whatever faults the store has, an
    ingestion calls [emails.create] once per fetched thread that yields a
    document, in the order of the threads, and never for a malformed one.
    What it has added to the [Email] collection is at most five documents
    with pairwise different keys, none of a key archived before, each the
    document of a fetched thread whose insert met no fault, carrying the
    account's email address and id.  When no insert meets a fault, after
    five turns of the loop every derived document whose key was not
    archived has one added document with its key. *)
Theorem ingestion_stores_derived_documents env req user ts picks emails replies :
  authenticated env req = Some user →
  mailbox env (accessToken user) = Fulfilled ts →
  let w := serve env ReadEmails req picks emails replies in
  omap created_doc (trace w) = omap (derived_doc user) (take 5 ts)
  ∧ ∃ added,
      emails_db w = emails ++ added
      ∧ length added ≤ 5
      ∧ NoDup (index_key <$> added)
      ∧ (∀ d, d ∈ added →
           ¬ archived d emails
           ∧ ownEmail d = Some (emailAddress user)
           ∧ userId d = Some (user_id user)
           ∧ ∃ i t, take 5 ts !! i = Some t
                    ∧ email_doc user t = inr d
                    ∧ emails_create_fault env i = None)
      ∧ ((∀ i, emails_create_fault env i = None) →
         5 ≤ length picks →
         ∀ i t d,
           take 5 ts !! i = Some t →
           email_doc user t = inr d →
           ¬ archived d emails →
           ∃ d', d' ∈ added ∧ index_key d' = index_key d).
Proof.
  intros Hauth Hbox w.
  destruct (authenticated_token _ _ _ Hauth) as (token & Htok & Huser).
  pose proof (ingest_inv_serve env req token user ts picks emails replies
                Htok Huser Hbox) as Hinv.
  pose proof (ingest_stored_docs env req token user ts picks emails replies
                Htok Huser Hbox) as Hdocs.
  fold w in Hinv, Hdocs. pose proof Hinv as (Hc & _ & _).
  split.
  { destruct (inv_trace _ _ _ _ _ _ _ Hc) as (logs & -> & Hlogs).
    unfold ingest_prefix. rewrite !omap_app, created_doc_start.
    rewrite (created_doc_logs logs Hlogs). simpl. by rewrite app_nil_r. }
  destruct (inv_emails _ _ _ _ _ _ _ Hc) as (added & Hdb & Hnd & Hnew).
  assert (∀ d, d ∈ added →
               ∃ i t, take 5 ts !! i = Some t ∧ email_doc user t = inr d
                      ∧ emails_create_fault env i = None) as Hfrom.
  { intros d Hd.
    destruct (Hdocs d) as [Hold|(n & Ht & Hf)].
    - rewrite Hdb. apply elem_of_app. by right.
    - destruct (Hnew d Hd). unfold archived. by apply list_elem_of_fmap_2.
    - destruct (start_tasks_inv user _ 0 _ Ht) as (i & t & doc & Heq & Hi & Hdoc).
      injection Heq as -> ->. by exists i, t. }
  exists added. split; [done|]. split; [|split; [done|split]].
  - assert (added ⊆+ omap (derived_doc user) (take 5 ts)) as Hsub.
    { apply NoDup_submseteq; [by eapply NoDup_fmap_1|].
      intros d Hd. destruct (Hfrom d Hd) as (i & t & Hi & Hdoc & _).
      apply list_elem_of_omap. exists t.
      split; [by eapply list_elem_of_lookup_2|].
      unfold derived_doc. by rewrite Hdoc. }
    apply submseteq_length in Hsub.
    pose proof (omap_length_le (derived_doc user) (take 5 ts)).
    rewrite length_take in *. lia.
  - intros d Hd. split; [by apply Hnew|].
    destruct (Hfrom d Hd) as (i & t & Hi & Hdoc & Hf).
    destruct (email_doc_fields user t d Hdoc) as (_ & _ & Hown & Hid).
    split; [done|]. split; [done|]. by exists i, t.
  - intros Hnofault Hlen i t d Hi Hdoc Hnot.
    assert (pending w = []) as Hpend
      by apply (ingest_serve_settles env req token user ts picks emails replies
                  Htok Huser Hbox (take_5_length _ _ Hlen)).
    pose proof (ingest_thread_done _ _ _ _ _ _ _ _ _ Hinv Hpend Hi) as [_ Hev].
    rewrite Hdoc in Hev. destruct Hev as [_ Ha]. specialize (Ha (Hnofault i)).
    unfold archived in Ha. rewrite Hdb, fmap_app in Ha.
    apply elem_of_app in Ha as [Ha|Ha]; [done|].
    apply list_elem_of_fmap in Ha as (d' & Hk & Hd'). by exists d'.
Qed.

Lemma ingestion_stores_derived_documents_witness :
  let w := serve (scenario_env [thread_1; thread_empty; thread_1_again; thread_2]
                    no_fault no_fault None)
             ReadEmails request_tok1 [3; 2; 1; 0; 0] [email_2] [] in
  omap created_doc (trace w) = [email_1; email_1; email_2].
Proof.
  apply (ingestion_stores_derived_documents
           (scenario_env [thread_1; thread_empty; thread_1_again; thread_2]
              no_fault no_fault None)
           request_tok1 account_A [thread_1; thread_empty; thread_1_again; thread_2]
           [3; 2; 1; 0; 0] [email_2] [] eq_refl eq_refl).
Defined.

(** ** Which route writes which collection *)

(** Up to the moment its functions have returned or are parked, a request
    has written neither collection: what is written is written when an
    awaited insert settles. *)
Lemma app_stores_untouched env r req w : stores_untouched w (app env r req w).
Proof.
  apply (respects_app stores_untouched); unfold stores_untouched; try done.
  intros w1 w2 w3 [-> ->] [-> ->]. done.
Qed.

Lemma replies_db_react w : replies_db (react w) = replies_db w.
Proof.
  unfold react. destruct (join w) as [j|]; [|done].
  destruct (promise_all _ _) as [[[]|e]|]; [| |done];
    unfold read_emails_resume, try_catch, bind, res_send; simpl;
    by destruct (sent (res w)).
Qed.

Lemma serve_replies_grow env r req picks emails replies :
  replies `prefix_of` replies_db (serve env r req picks emails replies).
Proof.
  apply (respects_serve replies_grow); unfold replies_grow; intros; simpl;
    try done.
  - by etrans.
  - by apply prefix_app_r.
Qed.

(** A request that has parked no callback is over. *)
Lemma serve_idle env r req picks emails replies :
  pending (app env r req (init_world emails replies)) = [] →
  emails_db (serve env r req picks emails replies) = emails
  ∧ replies_db (serve env r req picks emails replies) = replies.
Proof.
  intros Hp. unfold serve. rewrite event_loop_idle by done.
  apply (app_stores_untouched env r req (init_world emails replies)).
Qed.

(** Reply generation, in whatever way it starts, never writes the [Email]
    collection. *)
Lemma read_email_gpt_keeps_emails env req picks emails replies :
  emails_db (serve env ReadEmailGpt req picks emails replies) = emails.
Proof.
  destruct (authenticated env req) as [user|] eqn:Hauth.
  - destruct (authenticated_token _ _ _ Hauth) as (token & Htok & Huser).
    destruct (emails_find_fault env) as [e|] eqn:Hfind.
    + apply serve_idle.
      by rewrite (app_read_email_gpt_rejected _ _ _ _ _ _ _ Htok Huser Hfind).
    + destruct (reply_tasks_outcome env user (emails_of user emails) 0)
        as [Htasks Hout].
      assert (reply_run env emails
                (replies ++ stored_replies env user 0 (emails_of user emails))
                (app env ReadEmailGpt req (init_world emails replies))) as Hinv.
      { rewrite (app_read_email_gpt _ _ _ _ _ _ Htok Huser Hfind).
        constructor; simpl; [done| |done|done]. by rewrite Hout. }
      by destruct (event_loop_reply_run env _ _ picks _ Hinv) as [[_ _ _ Hemails] _].
  - apply serve_idle. by rewrite app_refused.
Qed.

(** Ingestion, in whatever way it starts, never writes the [Reply]
    collection. *)
Lemma read_emails_keeps_replies env req picks emails replies :
  replies_db (serve env ReadEmails req picks emails replies) = replies.
Proof.
  destruct (authenticated env req) as [user|] eqn:Hauth.
  - destruct (authenticated_token _ _ _ Hauth) as (token & Htok & Huser).
    destruct (mailbox env (accessToken user)) as [ts|e] eqn:Hbox.
    + destruct (ingest_inv_serve env req token user ts picks emails replies
                  Htok Huser Hbox) as (Hc & _ & _).
      apply (inv_replies _ _ _ _ _ _ _ Hc).
    + apply serve_idle.
      by rewrite (app_read_emails_rejected _ _ _ _ _ _ _ Htok Huser Hbox).
  - apply serve_idle. by rewrite app_refused.
Qed.

Lemma pass_through_parks_nothing env r req emails replies :
  r = GetMessage ∨ r = GetFile ∨ r = ReadReplies →
  pending (app env r req (init_world emails replies)) = [].
Proof.
  intros Hr. destruct (authenticated env req) as [user|] eqn:Hauth.
  - destruct (authenticated_token _ _ _ Hauth) as (token & Htok & Huser).
    destruct Hr as [->|[->| ->]].
    + by rewrite (app_get_message _ _ _ _ _ _ Htok Huser).
    + rewrite (app_get_file _ _ _ _ _ _ Htok Huser).
      by destruct (files_find env (accessToken user) (query_id req)).
    + by rewrite (app_read_replies _ _ _ _ _ _ Htok Huser).
  - by rewrite app_refused.
Qed.

(** X7. Whatever the route, the request, the outside and the schedule:
    both collections only ever get documents appended, nothing stored is
    changed or removed; no route but [/nylas/read-emails] writes the
    [Email] collection and no route but [/nylas/read-email-gpt] writes the
    [Reply] collection; and no handler has written either collection by
    the time it returns or parks, from whatever world it starts. *)
Theorem archives_are_append_only env r req picks emails replies :
  let w := serve env r req picks emails replies in
  emails `prefix_of` emails_db w
  ∧ replies `prefix_of` replies_db w
  ∧ (r ≠ ReadEmails → emails_db w = emails)
  ∧ (r ≠ ReadEmailGpt → replies_db w = replies)
  ∧ (∀ w0, emails_db (app env r req w0) = emails_db w0
           ∧ replies_db (app env r req w0) = replies_db w0).
Proof.
  intros w. split; [|split; [|split; [|split]]].
  - apply grows_prefix, serve_grows.
  - apply serve_replies_grow.
  - intros Hr. destruct r; try done.
    + apply serve_idle, pass_through_parks_nothing. auto.
    + apply serve_idle, pass_through_parks_nothing. auto.
    + apply read_email_gpt_keeps_emails.
    + apply serve_idle, pass_through_parks_nothing. auto.
  - intros Hr. destruct r; try done.
    + apply read_emails_keeps_replies.
    + apply serve_idle, pass_through_parks_nothing. auto.
    + apply serve_idle, pass_through_parks_nothing. auto.
    + apply serve_idle, pass_through_parks_nothing. auto.
  - intros w0. apply app_stores_untouched.
Qed.

(** ** What a caller can be sent *)

(** The response of a request, by the way the request goes. *)
Lemma serve_response_cases env r req picks emails replies :
  let w := serve env r req picks emails replies in
  (authenticated env req = None
   ∧ res w = mkResponse 401 (Some (JsonString "Unauthorized"))
   ∧ pending w = [])
  ∨ (∃ user,
       authenticated env req = Some user
       ∧ statusCode (res w) = 200
       ∧ (∀ msg, sent (res w) ≠ Some (JsonMessageObject msg))
       ∧ (∀ ts, r = ReadEmails → mailbox env (accessToken user) = Fulfilled ts →
                pending w ≠ []))
  ∨ (∃ user ts,
       authenticated env req = Some user
       ∧ r = ReadEmails
       ∧ mailbox env (accessToken user) = Fulfilled ts
       ∧ pending w = []
       ∧ res w = mkResponse 201 (Some (JsonThreads (take 5 ts)))).
Proof.
  intros w. destruct (authenticated env req) as [user|] eqn:Hauth.
  2:{ left. unfold w, serve. rewrite (app_refused _ _ _ _ _ Hauth).
      by rewrite event_loop_idle. }
  right. destruct (authenticated_token _ _ _ Hauth) as (token & Htok & Huser).
  destruct r.
  - destruct (mailbox env (accessToken user)) as [ts|e] eqn:Hbox.
    + pose proof (ingest_inv_serve env req token user ts picks emails replies
                    Htok Huser Hbox) as Hinv.
      fold w in Hinv. destruct (ingest_response _ _ _ _ _ _ _ Hinv) as [Hwait Hdone].
      destruct (pending w) as [|t l] eqn:Hp.
      * right. exists user, ts. by rewrite Hdone.
      * left. exists user. rewrite Hwait by done.
        repeat split; first [done | intros ts' _ _; by rewrite Hp].
    + left. exists user. unfold w, serve.
      rewrite (app_read_emails_rejected _ _ _ _ _ _ _ Htok Huser Hbox).
      rewrite event_loop_idle by done.
      repeat split; first [done | intros; congruence].
  - left. exists user. unfold w, serve.
    rewrite (app_get_message _ _ _ _ _ _ Htok Huser).
    rewrite event_loop_idle by done. simpl. repeat split; try done.
    intros msg. by destruct (messages_find env _ _).
  - left. exists user. unfold w, serve.
    rewrite (app_get_file _ _ _ _ _ _ Htok Huser).
    destruct (files_find env _ _) as [file|e];
      rewrite event_loop_idle by done; simpl; repeat split; try done.
    intros msg. by destruct (file_download env file).
  - left. exists user.
    assert (res w = mkResponse 200 None) as ->; [|by repeat split].
    unfold w, serve.
    destruct (emails_find_fault env) as [e|] eqn:Hfind.
    + rewrite (app_read_email_gpt_rejected _ _ _ _ _ _ _ Htok Huser Hfind).
      by rewrite event_loop_idle.
    + rewrite (app_read_email_gpt _ _ _ _ _ _ Htok Huser Hfind).
      match goal with
      | |- context [event_loop env picks ?w0] =>
          by destruct (event_loop_handler_untouched env picks w0 eq_refl)
            as (_ & -> & _)
      end.
  - left. exists user. unfold w, serve.
    rewrite (app_read_replies _ _ _ _ _ _ Htok Huser).
    rewrite event_loop_idle by done. by repeat split.
Qed.

(** X10. Whatever the route, the request, the outside and the schedule,
    the status of the response is 200 (the default, also of a request that
    is never answered), 201 or 401, and the body
    [{ message: 'Internal server error' }] is never sent: a failure of
    the gateway, the store or the completion engine never reaches the
    caller as a server error.  The status is 401 exactly when the bearer
    token does not resolve, and 201 exactly for an ingestion whose thread
    fetch succeeded and whose inserts have all settled. *)
Theorem no_server_error_is_sent env r req picks emails replies :
  let w := serve env r req picks emails replies in
  (statusCode (res w) = 200 ∨ statusCode (res w) = 201 ∨ statusCode (res w) = 401)
  ∧ (∀ msg, sent (res w) ≠ Some (JsonMessageObject msg))
  ∧ (statusCode (res w) = 401 ↔ authenticated env req = None)
  ∧ (statusCode (res w) = 201 ↔
     r = ReadEmails
     ∧ pending w = []
     ∧ ∃ user ts, authenticated env req = Some user
                  ∧ mailbox env (accessToken user) = Fulfilled ts).
Proof.
  intros w.
  destruct (serve_response_cases env r req picks emails replies)
    as [(Hauth & Hres & Hp)
       |[(user & Hauth & Hst & Hmsg & Hpend)
        |(user & ts & Hauth & -> & Hbox & Hp & Hres)]];
    fold w in Hres || fold w in Hst; fold w in Hp || fold w in Hpend.
  - rewrite Hres. simpl. repeat split; auto; try done.
    intros (_ & _ & user & ts & Hu & _). congruence.
  - fold w in Hmsg. rewrite Hst. repeat split; auto; try done.
    + intros Hnone. congruence.
    + intros (-> & Hp & user' & ts & Hu & Hbox).
      assert (user' = user) as -> by congruence.
      by destruct (Hpend ts eq_refl Hbox).
  - rewrite Hres. simpl. repeat split; auto; try done.
    + intros Hnone. congruence.
    + by exists user, ts.
Qed.



(** ** The redirect URI of hosted authentication *)






